(** * muacrypt: Autocrypt header codec and account state

    A shallow embedding of [muacrypt/mime.py] (header encoder, header
    parser, header selection) and of [core/autocrypt/account.py]
    (persistent configuration, atomic change scope, processing of incoming
    mail), followed by the properties proved about them.

    Python text strings are lists of characters ([ascii], read as the code
    points below 256), byte strings are lists of [byte], dictionaries are
    finite maps.  A call that can raise returns a [pyres]. *)

From Stdlib Require Import ZArith NArith List Ascii String Bool Lia.
From Stdlib.Strings Require Import Byte.
From stdpp Require Import gmap strings list fin_maps.
Import ListNotations.

Local Open Scope list_scope.

(* ===================================================================== *)
(** * Part I: the embedding                                               *)
(* ===================================================================== *)

(** ** Python values shared by both modules *)

Definition str := list ascii.
Definition bytes := list byte.

(** A string literal of the source. *)
Definition lit (s : string) : str := list_ascii_of_string s.

(** The code runs on both interpreters ([six], [from __future__ import]);
    the two differ where the source relies on [filter] returning a list and
    on ordering comparisons with [None]. *)
Inductive pyversion := PY2 | PY3.

Inductive exn :=
| AssertionError
| IndexError
| KeyError (k : str)
| TypeError
| ValueError
| BinasciiError
| ExternalError (tag : str).

Inductive pyres (A : Type) :=
| Ret (a : A)
| Raise (e : exn).
Arguments Ret {A} a.
Arguments Raise {A} e.

Definition ch (n : N) : ascii := ascii_of_N n.

(** [str.isspace] on the code points below 256: TAB..CR, FS..US and SPACE,
    NEL, NBSP. *)
Definition isspace (c : ascii) : bool :=
  let n := N_of_ascii c in
  ((9 <=? n) && (n <=? 13) || (28 <=? n) && (n <=? 32)
   || (n =? 133) || (n =? 160))%N.

Fixpoint lstrip (s : str) : str :=
  match s with
  | [] => []
  | c :: s' => if isspace c then lstrip s' else s
  end.

Fixpoint rstrip (s : str) : str :=
  match s with
  | [] => []
  | c :: s' =>
      match rstrip s' with
      | [] => if isspace c then [] else [c]
      | r => c :: r
      end
  end.

(** [s.strip()] *)
Definition strip (s : str) : str := rstrip (lstrip s).

(** [s.split(sep)] for a one-character separator. *)
Fixpoint split_char (sep : ascii) (s : str) : list str :=
  match s with
  | [] => [[]]
  | c :: s' =>
      if Ascii.eqb c sep then [] :: split_char sep s'
      else match split_char sep s' with
           | h :: t => (c :: h) :: t
           | [] => [[c]]
           end
  end.

(** [s.split(sep, 1)]: at most one cut, at the first separator. *)
Fixpoint split_once (sep : ascii) (s : str) : list str :=
  match s with
  | [] => [[]]
  | c :: s' =>
      if Ascii.eqb c sep then [[]; s']
      else match split_once sep s' with
           | h :: t => (c :: h) :: t
           | [] => [[c]]
           end
  end.

(** [s.split()]: the maximal runs of non-whitespace characters. *)
Fixpoint split_ws (s : str) : list str :=
  match s with
  | [] => []
  | c :: s' =>
      if isspace c then split_ws s'
      else match s' with
           | [] => [[c]]
           | c' :: _ =>
               if isspace c' then [c] :: split_ws s'
               else match split_ws s' with
                    | h :: t => (c :: h) :: t
                    | [] => [[c]]
                    end
           end
  end.

(** [sep.join(l)] *)
Fixpoint join (sep : str) (l : list str) : str :=
  match l with
  | [] => []
  | [x] => x
  | x :: l' => x ++ sep ++ join sep l'
  end.

Definition str_eqb (a b : str) : bool := bool_decide (a = b).

(** [range(0, stop, step)] *)
Definition py_range (stop step : nat) : list nat :=
  map (fun k => k * step) (seq 0 ((stop + step - 1) / step)).

(** [value[i:j]] for [0 <= i <= j] *)
Definition slice (s : str) (i j : nat) : str := firstn (j - i) (skipn i s).

(** ** The standard library's base64 codec

    [base64.b64encode] and [base64.b64decode] are not code of the
    repository; they are modelled after CPython's [binascii] so that the
    codec of the repository can be run.  The decoder is the lenient one
    ([validate=False]): characters outside the alphabet are skipped. *)

Definition b64_alphabet : str :=
  lit "ABCDEFGHIJKLMNOPQRSTUVWXYZabcdefghijklmnopqrstuvwxyz0123456789+/".

Definition BASE64_PAD : ascii := "="%char.

Definition table_b2a_base64 (n : N) : ascii :=
  nth (N.to_nat n) b64_alphabet BASE64_PAD.

Definition table_a2b_base64 (c : ascii) : option N :=
  let n := N_of_ascii c in
  (if (65 <=? n) && (n <=? 90) then Some (n - 65)
   else if (97 <=? n) && (n <=? 122) then Some (n - 71)
   else if (48 <=? n) && (n <=? 57) then Some (n + 4)
   else if n =? 43 then Some 62
   else if n =? 47 then Some 63
   else None)%N.

Definition byte_of_N (n : N) : byte :=
  match Byte.of_N (n mod 256) with
  | Some b => b
  | None => Byte.x00
  end.

(** The six-bit groups of three bytes; at the end of the input the
    missing bytes count as zero. *)
Definition sextet1 (x : N) : N := N.shiftr x 2.
Definition sextet2 (x y : N) : N :=
  N.lor (N.shiftl (N.land x 3) 4) (N.shiftr y 4).
Definition sextet3 (y z : N) : N :=
  N.lor (N.shiftl (N.land y 15) 2) (N.shiftr z 6).
Definition sextet4 (z : N) : N := N.land z 63.

Fixpoint b64encode (bs : bytes) : str :=
  match bs with
  | [] => []
  | [a] =>
      let x := Byte.to_N a in
      [ table_b2a_base64 (sextet1 x); table_b2a_base64 (sextet2 x 0);
        BASE64_PAD; BASE64_PAD ]
  | [a; b] =>
      let x := Byte.to_N a in
      let y := Byte.to_N b in
      [ table_b2a_base64 (sextet1 x); table_b2a_base64 (sextet2 x y);
        table_b2a_base64 (sextet3 y 0); BASE64_PAD ]
  | a :: b :: c :: rest =>
      let x := Byte.to_N a in
      let y := Byte.to_N b in
      let z := Byte.to_N c in
      table_b2a_base64 (sextet1 x)
      :: table_b2a_base64 (sextet2 x y)
      :: table_b2a_base64 (sextet3 y z)
      :: table_b2a_base64 (sextet4 z)
      :: b64encode rest
  end.

Definition emit (b : byte) (r : option bytes) : option bytes :=
  match r with
  | Some l => Some (b :: l)
  | None => None
  end.

(** The loop of [binascii.a2b_base64]: [quad_pos] is the position inside the
    current group of four, [leftchar] the bits not yet written, [pads] the
    number of pad characters seen in a row.  [None] is [binascii.Error]. *)
Fixpoint a2b_base64 (s : str) (quad_pos : nat) (leftchar : N) (pads : nat)
  : option bytes :=
  match s with
  | [] => match quad_pos with 0 => Some [] | _ => None end
  | this_ch :: s' =>
      if Ascii.eqb this_ch BASE64_PAD then
        if 2 <=? quad_pos then
          if 4 <=? quad_pos + S pads then Some []
          else a2b_base64 s' quad_pos leftchar (S pads)
        else a2b_base64 s' quad_pos leftchar pads
      else
        match table_a2b_base64 this_ch with
        | None => a2b_base64 s' quad_pos leftchar pads
        | Some v =>
            match quad_pos with
            | 0 => a2b_base64 s' 1 v 0
            | 1 => emit (byte_of_N (N.lor (N.shiftl leftchar 2) (N.shiftr v 4)))
                        (a2b_base64 s' 2 (N.land v 15) 0)
            | 2 => emit (byte_of_N (N.lor (N.shiftl leftchar 4) (N.shiftr v 2)))
                        (a2b_base64 s' 3 (N.land v 3) 0)
            | _ => emit (byte_of_N (N.lor (N.shiftl leftchar 6) v))
                        (a2b_base64 s' 0 0%N 0)
            end
        end
  end.

Definition is_ascii (c : ascii) : bool := (N_of_ascii c <? 128)%N.

(** [base64.b64decode(s)] on a text string: the text is first encoded as
    ASCII, which raises [ValueError] on any other character. *)
Definition b64decode (s : str) : pyres bytes :=
  if forallb is_ascii s then
    match a2b_base64 s 0 0%N 0 with
    | Some b => Ret b
    | None => Raise BinasciiError
    end
  else Raise ValueError.

(** ** muacrypt/mime.py *)

Definition decode_keydata (ascii_keydata : str) : pyres bytes :=
  b64decode ascii_keydata.

(** [indented_split(value, maxlen=78, indent="  ")] *)
Definition indented_split (value : str) : pyres str :=
  if existsb (Ascii.eqb (ch 10)) value then Raise AssertionError
  else
    let maxlen := 78 in
    let indent := lit "  " in
    let l := map (fun i => indent ++ slice value i (i + maxlen) ++ [ch 10])
                 (py_range (length value) maxlen) in
    Ret (rstrip (concat l)).

(** The [keydata] argument is either a byte string or already encoded
    text. *)
Inductive keyarg :=
| KBytes (b : bytes)
| KText (s : str).

Definition keyarg_truthy (k : keyarg) : bool :=
  match k with
  | KBytes [] | KText [] => false
  | _ => true
  end.

(** [make_ac_header_value(addr, keydata, prefer_encrypt="nopreference")];
    [None] for [prefer_encrypt] is the omitted argument. *)
Definition make_ac_header_value (addr : str) (keydata : keyarg)
  (prefer_encrypt : option str) : pyres str :=
  let prefer_encrypt := default (lit "nopreference") prefer_encrypt in
  if negb (keyarg_truthy keydata) then Raise AssertionError
  else
    let key := match keydata with KBytes b => b64encode b | KText s => s end in
    let l := [lit "addr=" ++ addr] in
    let l := if str_eqb prefer_encrypt (lit "nopreference") then l
             else l ++ [lit "prefer-encrypt=" ++ prefer_encrypt] in
    match indented_split key with
    | Raise e => Raise e
    | Ret body => Ret (join (lit "; ") (l ++ [lit "keydata=" ++ [ch 10] ++ body]))
    end.

Record ACParseResult := mkACParseResult {
  keydata : option bytes;
  addr : option str;
  prefer_encrypt : option str;
  extra_attr : option (gmap str str);
  error : option str
}.

(** [ACParseResult(error=msg)] *)
Definition ac_error (msg : str) : ACParseResult :=
  mkACParseResult None None None None (Some msg).

(** The values kept in [result_dict]. *)
Inductive pyval :=
| PStr (s : str)
| PBytes (b : bytes).

Definition as_str (v : option pyval) : option str :=
  match v with Some (PStr s) => Some s | _ => None end.

Definition as_bytes (v : option pyval) : option bytes :=
  match v with Some (PBytes b) => Some b | _ => None end.

(** The tail of [parse_ac_headervalue]: the check of the critical
    attributes and [ACParseResult(extra_attr=extra_attr, **result_dict)]. *)
Definition parse_finish (result_dict : gmap str pyval)
  (extra : gmap str str) : ACParseResult :=
  match result_dict !! lit "keydata" with
  | None => ac_error (lit "critical attr 'keydata' missing")
  | Some _ =>
      match result_dict !! lit "addr" with
      | None => ac_error (lit "critical attr 'addr' missing")
      | Some _ =>
          mkACParseResult
            (as_bytes (result_dict !! lit "keydata"))
            (as_str (result_dict !! lit "addr"))
            (as_str (result_dict !! lit "prefer_encrypt"))
            (Some extra) None
      end
  end.

(** The [for x in parts] loop of [parse_ac_headervalue]. *)
Fixpoint parse_parts (parts : list str) (result_dict : gmap str pyval)
  (extra : gmap str str) : pyres ACParseResult :=
  match parts with
  | [] => Ret (parse_finish result_dict extra)
  | x :: parts' =>
      match split_once "="%char x with
      | [n; v] =>
          let name := strip n in
          let value := strip v in
          if str_eqb name (lit "keydata") then
            match decode_keydata (concat (split_ws value)) with
            | Ret b =>
                parse_parts parts' (<[lit "keydata" := PBytes b]> result_dict)
                            extra
            | Raise _ => Ret (ac_error (lit "failed to decode keydata"))
            end
          else if str_eqb name (lit "prefer-encrypt") then
            if str_eqb value (lit "nopreference")
               || str_eqb value (lit "mutual") then
              parse_parts parts'
                (<[lit "prefer_encrypt" := PStr value]> result_dict) extra
            else
              Ret (ac_error (lit "unknown prefer-encryp setting '"
                             ++ value ++ lit "'"))
          else if str_eqb name (lit "addr") then
            parse_parts parts' (<[lit "addr" := PStr value]> result_dict) extra
          else
            match name with
            | [] => Raise IndexError
            | c :: _ =>
                if negb (Ascii.eqb c "_"%char) then
                  Ret (ac_error (lit "unknown critical attr '"
                                 ++ name ++ lit "'"))
                else parse_parts parts' result_dict (<[name := value]> extra)
            end
      | _ => Ret (ac_error (lit "malformed setting"))
      end
  end.

(** [filter(None, [x.strip() for x in value.split(";")])] as a sequence. *)
Definition header_parts (value : str) : list str :=
  List.filter (fun x => negb (str_eqb x [])) (map strip (split_char ";"%char value)).

(** Truth value of what [filter] returns: a list on Python 2, a lazy
    [filter] object (always true) on Python 3. *)
Definition filter_result_truthy (ver : pyversion) (parts : list str) : bool :=
  match ver with
  | PY2 => match parts with [] => false | _ => true end
  | PY3 => true
  end.

Definition parse_ac_headervalue (ver : pyversion) (value : str)
  : pyres ACParseResult :=
  let parts := header_parts value in
  if negb (filter_result_truthy ver parts) then Ret (ac_error (lit "empty header"))
  else
    parse_parts parts {[ lit "prefer_encrypt" := PStr (lit "nopreference") ]} ∅.

(** A message as the mail library presents it: [msg.get_content_type()],
    [msg.get_all("Autocrypt")], [msg["From"]] and [msg.get("Date")]. *)
Record Message := mkMessage {
  content_type : str;
  autocrypt_headers : list str;
  from_header : option str;
  date_header : option str
}.

(** Truth value of [r.error]: [None] and the empty string are false. *)
Definition error_truthy (r : ACParseResult) : bool :=
  match error r with
  | None | Some [] => false
  | Some _ => true
  end.

(** [not FromList or r.addr in FromList] *)
Definition from_list_admits (FromList : option (list str))
  (r : ACParseResult) : bool :=
  match FromList with
  | None | Some [] => true
  | Some l =>
      match addr r with
      | Some a => bool_decide (a ∈ l)
      | None => false
      end
  end.

(** The [for ac_header_value in ...] loop of
    [parse_one_ac_header_from_msg], threading [results] and
    [err_results]. *)
Fixpoint collect_ac_headers (ver : pyversion) (FromList : option (list str))
  (headers : list str) (results err_results : list ACParseResult)
  : pyres (list ACParseResult * list ACParseResult) :=
  match headers with
  | [] => Ret (results, err_results)
  | ac_header_value :: rest =>
      match parse_ac_headervalue ver ac_header_value with
      | Raise e => Raise e
      | Ret r =>
          if negb (error_truthy r) && from_list_admits FromList r then
            collect_ac_headers ver FromList rest (results ++ [r]) err_results
          else
            collect_ac_headers ver FromList rest results (err_results ++ [r])
      end
  end.

Definition parse_one_ac_header_from_msg (ver : pyversion) (msg : Message)
  (FromList : option (list str)) : pyres ACParseResult :=
  if str_eqb (content_type msg) (lit "multipart/report") then
    Ret (ac_error (lit "Ignoring 'multipart/report' message."))
  else
    match collect_ac_headers ver FromList (autocrypt_headers msg) [] [] with
    | Raise e => Raise e
    | Ret (results, err_results) =>
        match results with
        | [r] => Ret r
        | _ :: _ :: _ =>
            Ret (ac_error (lit "more than one valid Autocrypt header found"))
        | [] =>
            match err_results with
            | r :: _ => Ret r
            | [] => Ret (ac_error (lit "no valid Autocrypt header found"))
            end
        end
    end.

(** ** core/autocrypt/account.py *)

(** The values of a header dictionary and of a peer record: text, or
    [None] (a message without [Date] header stores [None] as its date). *)
Inductive jval :=
| JNone
| JStr (s : str).

Global Instance jval_eq_dec : EqDecision jval.
Proof. solve_decision. Defined.

(** The values of the top-level configuration dictionary: text, or a
    reference to a dictionary object.  [peers] is such an object: it is
    changed in place and can be reached from more than one dictionary. *)
Inductive cval :=
| CStr (s : str)
| CRef (l : nat).

(** What [json.dump] writes for a value, and what [==] compares. *)
Inductive fval :=
| FStr (s : str)
| FDict (m : gmap str (gmap str jval)).

Global Instance fval_eq_dec : EqDecision fval.
Proof. solve_decision. Defined.

(** [PersistentAttrMixin]: the working dictionary, the copy made at the
    last commit, the dictionary objects both may refer to, and the
    contents of the file at [self._path] ([None]: no file). *)
Record Config := mkConfig {
  _dict : gmap str cval;
  _dict_old : gmap str cval;
  heap : gmap nat (gmap str (gmap str jval));
  file : option (gmap str fval)
}.

(** [Config(path)] where no file exists at [path]. *)
Definition new_config : Config := mkConfig ∅ ∅ ∅ None.

Definition resolve (h : gmap nat (gmap str (gmap str jval))) (v : cval) : fval :=
  match v with
  | CStr s => FStr s
  | CRef l => FDict (default ∅ (h !! l))
  end.

(** The value of a dictionary with its references followed. *)
Definition deep (h : gmap nat (gmap str (gmap str jval)))
  (d : gmap str cval) : gmap str fval :=
  resolve h <$> d.

(** Code that changes the configuration and may raise. *)
Definition M (A : Type) : Type := Config -> Config * pyres A.

Definition retM {A} (a : A) : M A := fun c => (c, Ret a).
Definition raiseM {A} (e : exn) : M A := fun c => (c, Raise e).
Definition bindM {A B} (m : M A) (k : A -> M B) : M B :=
  fun c =>
    match m c with
    | (c1, Ret a) => k a c1
    | (c1, Raise e) => (c1, Raise e)
    end.
Definition liftM {A} (r : pyres A) : M A := fun c => (c, r).

Declare Scope py_scope.
Delimit Scope py_scope with py.
Notation "x <~ m ;; k" := (bindM m (fun x => k))
  (at level 100, m at next level, right associativity) : py_scope.
Notation "m ;;; k" := (bindM m (fun _ => k))
  (at level 100, right associativity) : py_scope.
Local Open Scope py_scope.

(** [_commit]: the file is written when the two dictionaries compare
    unequal; the copy taken is a shallow one. *)
Definition _commit : M bool := fun c =>
  if decide (deep (heap c) (_dict c) = deep (heap c) (_dict_old c)) then
    (c, Ret false)
  else
    (mkConfig (_dict c) (_dict c) (heap c) (Some (deep (heap c) (_dict c))),
     Ret true).

(** [with self.atomic_change(): body] *)
Definition atomic_change {A} (body : M A) : M A := fun c =>
  match body c with
  | (c1, Raise e) =>
      (mkConfig (_dict_old c1) (_dict_old c1) (heap c1) (file c1), Raise e)
  | (c1, Ret a) =>
      let (c2, _) := _commit c1 in (c2, Ret a)
  end.

(** The setter of a text-valued [persistent_property]. *)
Definition persistent_set (name : str) (values : option (list str))
  (value : str) : M unit := fun c =>
  match values with
  | Some vs =>
      if bool_decide (value ∈ vs) then
        (mkConfig (<[name := CStr value]> (_dict c)) (_dict_old c) (heap c)
                  (file c), Ret tt)
      else (c, Raise ValueError)
  | None =>
      (mkConfig (<[name := CStr value]> (_dict c)) (_dict_old c) (heap c)
                (file c), Ret tt)
  end.

(** [self.config.peers]: [self._dict.setdefault("peers", dict())]; the
    result is the dictionary object itself. *)
Definition config_peers : M nat := fun c =>
  match _dict c !! lit "peers" with
  | Some (CRef l) => (c, Ret l)
  | Some (CStr _) => (c, Raise TypeError)
  | None =>
      let l := fresh (dom (heap c)) in
      (mkConfig (<[lit "peers" := CRef l]> (_dict c)) (_dict_old c)
                (<[l := ∅]> (heap c)) (file c), Ret l)
  end.

(** [obj.get(key, {})] on the dictionary object at [l]. *)
Definition peers_get (l : nat) (key : str) : M (gmap str jval) := fun c =>
  (c, Ret (default ∅ (default ∅ (heap c !! l) !! key))).

(** [self.config.peers[From] = d] *)
Definition set_peer (From : str) (d : gmap str jval) : M unit :=
  l <~ config_peers ;;
  fun c =>
    (mkConfig (_dict c) (_dict_old c)
              (<[l := <[From := d]> (default ∅ (heap c !! l))]> (heap c))
              (file c), Ret tt).

(** [set_prefer_encrypt] *)
Definition set_prefer_encrypt (value : str) : M unit :=
  atomic_change
    (persistent_set (lit "prefer_encrypt")
       (Some [lit "yes"; lit "no"; lit "notset"]) value).

Record PeerInfo := mkPeerInfo {
  pi_dict : gmap str jval;
  keyhandle : jval;
  date : jval
}.

(** [PeerInfo(d)]: both bookkeeping keys are popped from a copy. *)
Definition make_PeerInfo (d : gmap str jval) : pyres PeerInfo :=
  match d !! lit "*keyhandle" with
  | None => Raise (KeyError (lit "*keyhandle"))
  | Some kh =>
      match d !! lit "*date" with
      | None => Raise (KeyError (lit "*date"))
      | Some dt =>
          Ret (mkPeerInfo (delete (lit "*date") (delete (lit "*keyhandle") d))
                          kh dt)
      end
  end.

(** Python's ordering of tuples of integers. *)
Fixpoint tuple_ge (x y : list Z) : bool :=
  match x, y with
  | _, [] => true
  | [], _ :: _ => false
  | a :: x', b :: y' => if (a =? b)%Z then tuple_ge x' y' else (b <? a)%Z
  end.

(** [a >= b] on results of [parsedate]: a time tuple or [None].  Python 3
    refuses to order [None]; Python 2 puts it below every tuple. *)
Definition parsed_ge (ver : pyversion) (a b : option (list Z)) : pyres bool :=
  match a, b with
  | Some x, Some y => Ret (tuple_ge x y)
  | _, _ =>
      match ver with
      | PY3 => Raise TypeError
      | PY2 => Ret (match a, b with None, Some _ => false | _, _ => true end)
      end
  end.

(** What [process_incoming] calls and this file does not define: the
    [mime] module of the account's own package ([from . import mime], whose
    header result is a dictionary with the entries [to] and [key]),
    [email.utils.parsedate], and the key ring. *)
Record Externals := mkExternals {
  mime_parse_email_addr : option str -> str * str;
  mime_parse_one_ac_header_from_msg : Message -> gmap str jval;
  parsedate : jval -> option (list Z);
  import_keydata : bytes -> pyres str
}.

Definition dict_truthy {V} (d : gmap str V) : bool :=
  negb (bool_decide (d = ∅)).

Definition jval_of (o : option str) : jval :=
  match o with
  | Some s => JStr s
  | None => JNone
  end.

(** [d[key]] *)
Definition getitem (d : gmap str jval) (key : str) : pyres jval :=
  match d !! key with
  | Some v => Ret v
  | None => Raise (KeyError key)
  end.

(** [b64decode(v)]: [None] is not accepted. *)
Definition b64decode_val (v : jval) : pyres bytes :=
  match v with
  | JStr s => b64decode s
  | JNone => Raise TypeError
  end.

Definition process_incoming (E : Externals) (ver : pyversion) (msg : Message)
  : M (option PeerInfo) :=
  let From := snd (mime_parse_email_addr E (from_header msg)) in
  l <~ config_peers ;;
  old <~ peers_get l From ;;
  let d := mime_parse_one_ac_header_from_msg E msg in
  let date := jval_of (date_header msg) in
  if dict_truthy d then
    to <~ liftM (getitem d (lit "to")) ;;
    if bool_decide (to = JStr From) then
      ge <~ liftM (parsed_ge ver (parsedate E date)
                     (parsedate E (default date (old !! lit "*date")))) ;;
      if (ge : bool) then
        let d := <[lit "*date" := date]> d in
        key <~ liftM (getitem d (lit "key")) ;;
        keydata <~ liftM (b64decode_val key) ;;
        keyhandle <~ liftM (import_keydata E keydata) ;;
        let d := <[lit "*keyhandle" := JStr keyhandle]> d in
        atomic_change (set_peer From d) ;;;
        pi <~ liftM (make_PeerInfo d) ;;
        retM (Some pi)
      else retM None
    else retM None
  else if dict_truthy old then
    atomic_change (set_peer From ∅) ;;;
    retM None
  else retM None.

(** [get_peerinfo] *)
Definition get_peerinfo (emailadr : str) : M (option PeerInfo) :=
  l <~ config_peers ;;
  fun c =>
    match default ∅ (heap c !! l) !! emailadr with
    | None => (c, Ret None)
    | Some state =>
        if dict_truthy state then
          match make_PeerInfo state with
          | Ret pi => (c, Ret (Some pi))
          | Raise e => (c, Raise e)
          end
        else (c, Ret None)
    end.

(** ** Vocabulary of the statements *)

(** The attribute name of one segment, as the parser reads it. *)
Definition setting_name (x : str) : option str :=
  match split_once "="%char x with
  | [n; _] => Some (strip n)
  | _ => None
  end.

Definition known_name (n : str) : bool :=
  str_eqb n (lit "keydata") || str_eqb n (lit "prefer-encrypt")
  || str_eqb n (lit "addr").

(** Not one of the three attribute names and not starting with an
    underscore; the empty name is of this kind. *)
Definition unknown_critical (n : str) : bool :=
  negb (known_name n)
  && match n with
     | c :: _ => negb (Ascii.eqb c "_"%char)
     | [] => true
     end.

Definition is_error_result (r : ACParseResult) : Prop :=
  exists msg, msg <> [] /\ r = ac_error msg.

Definition ambiguity_error : ACParseResult :=
  ac_error (lit "more than one valid Autocrypt header found").

(** [h] parses to [r] without error and [r] passes the allow-list. *)
Definition survives (ver : pyversion) (FromList : option (list str))
  (h : str) (r : ACParseResult) : Prop :=
  parse_ac_headervalue ver h = Ret r
  /\ error r = None
  /\ from_list_admits FromList r = true.

(** [h] parses to [r], which is an error result or fails the allow-list. *)
Definition rejected (ver : pyversion) (FromList : option (list str))
  (h : str) (r : ACParseResult) : Prop :=
  parse_ac_headervalue ver h = Ret r
  /\ (error_truthy r = true \/ from_list_admits FromList r = false).

Definition two_header_message (ct : string) : Message :=
  mkMessage (lit ct)
    [lit "addr=a@b.org; keydata=QUJD"; lit "addr=a@b.org; keydata=QUJE"]
    (Some (lit "a@b.org")) None.


(** One segment as the loop reads it: name and value, both stripped. *)
Definition setting (x : str) : option (str * str) :=
  match split_once "="%char x with
  | [n; v] => Some (strip n, strip v)
  | _ => None
  end.

(** A segment the loop accepts, whatever the other segments are. *)
Definition setting_ok (x : str) : bool :=
  match setting x with
  | None => false
  | Some (name, value) =>
      if str_eqb name (lit "keydata") then
        match decode_keydata (concat (split_ws value)) with
        | Ret _ => true
        | Raise _ => false
        end
      else if str_eqb name (lit "prefer-encrypt") then
        str_eqb value (lit "nopreference") || str_eqb value (lit "mutual")
      else if str_eqb name (lit "addr") then true
      else match name with
           | c :: _ => Ascii.eqb c "_"%char
           | [] => false
           end
  end.

(** The value of the last segment that carries the name [name]. *)
Fixpoint last_setting (name : str) (parts : list str) : option str :=
  match parts with
  | [] => None
  | x :: parts' =>
      match last_setting name parts' with
      | Some v => Some v
      | None =>
          match setting x with
          | Some (n, v) => if str_eqb n name then Some v else None
          | None => None
          end
      end
  end.


(** The decoded key of a [keydata] value. *)
Definition keydata_of (value : str) : option bytes :=
  match decode_keydata (concat (split_ws value)) with
  | Ret b => Some b
  | Raise _ => None
  end.

(** The characters the encoder writes. *)
Definition b64char (c : ascii) : bool :=
  match table_a2b_base64 c with
  | Some _ => true
  | None => Ascii.eqb c BASE64_PAD
  end.

Definition nonspace (c : ascii) : bool := negb (isspace c).

(** The preferences the header grammar knows; [None] is the omitted
    argument of the encoder. *)
Definition valid_preference (p : option str) : Prop :=
  p = None \/ p = Some (lit "nopreference") \/ p = Some (lit "mutual").

(** The peer records as [self.config.peers] shows them. *)
Definition peers_view (c : Config) : gmap str (gmap str jval) :=
  match _dict c !! lit "peers" with
  | Some (CRef l) => default ∅ (heap c !! l)
  | _ => ∅
  end.

(** The stored state of one peer: [self.config.peers.get(a, {})]. *)
Definition stored (c : Config) (a : str) : gmap str jval :=
  default ∅ (peers_view c !! a).

(** The sender of a message, as [process_incoming] extracts it. *)
Definition sender (E : Externals) (msg : Message) : str :=
  snd (mime_parse_email_addr E (from_header msg)).

(** What the account expects from its [mime] module for a message that
    carries no Autocrypt header: the empty dictionary, the one value
    [process_incoming] treats as "doesn't have one". *)
Definition no_header_is_empty (E : Externals) : Prop :=
  forall m,
    content_type m <> lit "multipart/report" ->
    autocrypt_headers m = [] ->
    mime_parse_one_ac_header_from_msg E m = ∅.

(** The record that [process_incoming] stores for an accepted header. *)
Definition accepted_record (d : gmap str jval) (date : jval) (kh : str)
  : gmap str jval :=
  <[lit "*keyhandle" := JStr kh]> (<[lit "*date" := date]> d).

(** Test doubles for the collaborators, used only to run the examples.
    The header function does not parse: it answers a message that carries
    an Autocrypt header with the dictionary it is given and a message
    without one with the empty dictionary.  The sender is the [From] text,
    a date is read as the sequence of its character codes, and every key is
    imported under the same handle. *)
Definition sample_header (d : gmap str jval) (m : Message) : gmap str jval :=
  match autocrypt_headers m with
  | [] => ∅
  | _ :: _ => d
  end.

Definition example_externals : Externals :=
  mkExternals
    (fun o => ([], default [] o))
    (sample_header
       (<[lit "to" := JStr (lit "a@b.org")]>
          (<[lit "key" := JStr (lit "QUJD")]>
             {[ lit "prefer-encrypt" := JStr (lit "nopreference") ]})))
    (fun v =>
       match v with
       | JStr s => Some (map (fun c => Z.of_N (N_of_ascii c)) s)
       | JNone => None
       end)
    (fun _ => Ret (lit "KEYHANDLE")).

Definition example_message (date : string) (headers : list str) : Message :=
  mkMessage (lit "text/plain") headers (Some (lit "a@b.org")) (Some (lit date)).

(** The configuration after a first message of [a@b.org], dated
    2020-02-02, was processed by a new account. *)
Definition example_config : Config :=
  fst (process_incoming example_externals PY3
         (example_message "2020-02-02" [lit "addr=a@b.org; keydata=QUJD"])
         new_config).

(** The peer records in the file written by the last commit. *)
Definition file_peers (c : Config) : gmap str (gmap str jval) :=
  match file c with
  | Some f =>
      match f !! lit "peers" with
      | Some (FDict m) => m
      | _ => ∅
      end
  | None => ∅
  end.

Definition example_record (a : string) : gmap str jval :=
  {[ lit "to" := JStr (lit a) ]}.

(** A scope that stores a peer record and then fails. *)
Definition failing_scope : M unit :=
  (set_peer (lit "x@y.org") (example_record "x@y.org") ;;;
   raiseM ValueError)%py.

(** ** Vocabulary of the further properties *)

(** The entries the loop of [parse_ac_headervalue] can have written into
    [result_dict]: a valid preference, and bytes and text under [keydata]
    and [addr] if they are there at all. *)
Definition result_dict_ok (rd : gmap str pyval) : Prop :=
  (exists p, rd !! lit "prefer_encrypt" = Some (PStr p)
             /\ (p = lit "nopreference" \/ p = lit "mutual"))
  /\ (rd !! lit "keydata" = None
      \/ exists b, rd !! lit "keydata" = Some (PBytes b))
  /\ (rd !! lit "addr" = None \/ exists a, rd !! lit "addr" = Some (PStr a)).

(** A result without error: all four attributes are there and the
    preference is one of the grammar. *)
Definition is_full_result (r : ACParseResult) : Prop :=
  exists b a p ea,
    r = mkACParseResult (Some b) (Some a) (Some p) (Some ea) None
    /\ (p = lit "nopreference" \/ p = lit "mutual").

Definition starts_with_underscore (n : str) : bool :=
  match n with
  | c :: _ => Ascii.eqb c "_"%char
  | [] => false
  end.

(** The [prefer-encrypt] segment the encoder writes: none for the default
    preference. *)
Definition preference_segment (pref : option str) : str :=
  match pref with
  | None => []
  | Some p =>
      if str_eqb p (lit "nopreference") then []
      else lit "prefer-encrypt=" ++ p ++ lit "; "
  end.

(** The file holds what the copy of the last commit shows (or there is no
    file and that copy is empty). *)
Definition committed (c : Config) : Prop :=
  match file c with
  | Some f => f = deep (heap c) (_dict_old c)
  | None => _dict_old c = ∅
  end.

(** [get_delivered_to(msg, fallback_delivto)], with the address parser of
    the mail library as [parse]; [delivered_to] is
    [msg.get("Delivered-To")]. *)
Definition get_delivered_to (parse : option str -> str)
  (delivered_to : option str) (fallback_delivto : option str) : pyres str :=
  let delivto := parse delivered_to in
  let delivto :=
    match delivto, fallback_delivto with
    | [], Some (_ :: _) => parse fallback_delivto
    | _, _ => delivto
    end in
  match delivto with
  | [] => Raise ValueError
  | _ => Ret delivto
  end.

(** The [peers] entry of the working dictionary, if there is one, is a
    dictionary object (as [persistent_property("peers", dict)] makes it). *)
Definition peers_well_typed (c : Config) : Prop :=
  forall s, _dict c !! lit "peers" <> Some (CStr s).

(** What [PeerInfo(d)] is for an accepted record. *)
Definition accepted_info (d : gmap str jval) (date : jval) (kh : str)
  : PeerInfo :=
  mkPeerInfo
    (delete (lit "*date") (delete (lit "*keyhandle") (accepted_record d date kh)))
    (JStr kh) date.

(** [PeerInfo.__getitem__] *)
Definition peerinfo_getitem (pi : PeerInfo) (name : str) : pyres jval :=
  getitem (pi_dict pi) name.

(** Collaborators whose header result carries a [key] that is not base64
    text (one character of the alphabet is no valid length). *)
Definition example_externals_bad_key : Externals :=
  mkExternals
    (fun o => ([], default [] o))
    (fun m =>
       <[lit "to" := JStr (default [] (from_header m))]>
         {[ lit "key" := JStr (lit "A") ]})
    (fun v =>
       match v with
       | JStr s => Some (map (fun c => Z.of_N (N_of_ascii c)) s)
       | JNone => None
       end)
    (fun _ => Ret (lit "KEYHANDLE")).
(* ===================================================================== *)
(** * Part II: properties                                                 *)
(* ===================================================================== *)

(** ** The header parser, segment by segment *)

Lemma str_eqb_eq a b : str_eqb a b = true <-> a = b.
Proof. unfold str_eqb. apply bool_decide_eq_true. Qed.

Lemma str_eqb_neq a b : str_eqb a b = false <-> a <> b.
Proof. unfold str_eqb. apply bool_decide_eq_false. Qed.

Lemma str_eqb_refl a : str_eqb a a = true.
Proof. by apply str_eqb_eq. Qed.

(** One round of the loop: it stops with an error result, or it raises
    because the name is empty, or it goes on with updated dictionaries. *)
Lemma parse_parts_step x parts rd ea :
  (exists msg, msg <> [] /\ parse_parts (x :: parts) rd ea = Ret (ac_error msg))
  \/ (setting_name x = Some []
      /\ parse_parts (x :: parts) rd ea = Raise IndexError)
  \/ (exists n rd' ea',
        setting_name x = Some n /\ unknown_critical n = false
        /\ parse_parts (x :: parts) rd ea = parse_parts parts rd' ea').
Proof.
  unfold setting_name, unknown_critical, known_name. cbn [parse_parts].
  destruct (split_once "=" x) as [|n [|v [|w t]]];
    try (left; eexists; split; [|reflexivity]; discriminate).
  destruct (str_eqb (strip n) (lit "keydata")) eqn:Hk.
  { destruct (decode_keydata _).
    - right; right. eexists _, _, _. by rewrite Hk.
    - left; eexists; split; [|reflexivity]; discriminate. }
  destruct (str_eqb (strip n) (lit "prefer-encrypt")) eqn:Hp.
  { destruct (_ || _).
    - right; right. eexists _, _, _. by rewrite Hk, Hp.
    - left; eexists; split; [|reflexivity]; discriminate. }
  destruct (str_eqb (strip n) (lit "addr")) eqn:Ha.
  { right; right. eexists _, _, _. by rewrite Hk, Hp, Ha. }
  destruct (strip n) as [|c s] eqn:Hn.
  { right; left. done. }
  destruct (Ascii.eqb c "_") eqn:Hc; cbn [negb].
  - right; right. eexists _, _, _. rewrite Hk, Hp, Ha, Hc. done.
  - left; eexists; split; [|reflexivity]; discriminate.
Qed.

(** A segment with an unknown, non-empty critical name makes the loop stop
    with an error result, whatever the other segments are, unless an
    earlier segment has an empty name. *)
Lemma parse_parts_unknown_critical parts : forall rd ea x n,
  In x parts ->
  setting_name x = Some n ->
  unknown_critical n = true ->
  (forall p, In p parts -> setting_name p <> Some []) ->
  exists msg, msg <> [] /\ parse_parts parts rd ea = Ret (ac_error msg).
Proof.
  induction parts as [|p parts IH]; intros rd ea x n Hin Hn Hu Hne; [done|].
  destruct (parse_parts_step p parts rd ea)
    as [Herr | [[Hemp _] | (n' & rd' & ea' & Hn' & Hu' & Heq)]].
  - exact Herr.
  - exfalso. apply (Hne p); [by left | done].
  - destruct Hin as [-> | Hin]; [congruence|].
    rewrite Heq. apply (IH rd' ea' x n); auto.
    intros q Hq. apply Hne. by right.
Qed.

Lemma header_parts_nonempty_truthy ver value x :
  In x (header_parts value) ->
  filter_result_truthy ver (header_parts value) = true.
Proof. destruct ver, (header_parts value); simpl; tauto. Qed.

Lemma parse_ac_headervalue_unknown_critical ver value x n :
  In x (header_parts value) ->
  setting_name x = Some n ->
  unknown_critical n = true ->
  (forall p, In p (header_parts value) -> setting_name p <> Some []) ->
  exists r, parse_ac_headervalue ver value = Ret r /\ is_error_result r.
Proof.
  intros Hin Hn Hu Hne. unfold parse_ac_headervalue.
  rewrite (header_parts_nonempty_truthy ver value x Hin). cbn [negb].
  destruct (parse_parts_unknown_critical _
              {[ lit "prefer_encrypt" := PStr (lit "nopreference") ]} ∅
              x n Hin Hn Hu Hne) as (msg & Hmsg & ->).
  eexists; split; [reflexivity|]. by exists msg.
Qed.

(** C5, at the input where the code departs from it: the segment [=bar]
    has a name (the empty one) that is none of [addr], [prefer-encrypt],
    [keydata] and does not start with an underscore, and the parser raises
    [IndexError] instead of returning an error result, on either
    interpreter and also after valid attributes. *)
Theorem parse_ac_headervalue_empty_name_raises :
  setting_name (lit "=bar") = Some []
  /\ unknown_critical [] = true
  /\ (forall ver, parse_ac_headervalue ver (lit "=bar") = Raise IndexError)
  /\ (forall ver,
        parse_ac_headervalue ver (lit "addr=a@b.org; keydata=QUJD; =bar")
        = Raise IndexError).
Proof.
  repeat split; try (intros []); vm_compute; reflexivity.
Qed.

(** ** A header value without segments *)

Lemma parse_ac_headervalue_no_parts_py2 value :
  header_parts value = [] ->
  parse_ac_headervalue PY2 value = Ret (ac_error (lit "empty header")).
Proof. intros H. unfold parse_ac_headervalue. rewrite H. reflexivity. Qed.

(** C6, on both interpreters: a value that leaves no segment is answered
    with "empty header" only where [filter] returns a list.  On Python 3
    the [filter] object is true, [if not parts] is not taken, the loop runs
    zero times and the answer is the missing-[keydata] error. *)
Theorem parse_ac_headervalue_zero_segments value :
  header_parts value = [] ->
  parse_ac_headervalue PY2 value = Ret (ac_error (lit "empty header"))
  /\ parse_ac_headervalue PY3 value
     = Ret (ac_error (lit "critical attr 'keydata' missing"))
  /\ parse_ac_headervalue PY3 value <> Ret (ac_error (lit "empty header")).
Proof.
  intros H. split; [by apply parse_ac_headervalue_no_parts_py2|].
  assert (parse_ac_headervalue PY3 value
          = Ret (ac_error (lit "critical attr 'keydata' missing"))) as ->.
  { unfold parse_ac_headervalue. rewrite H. vm_compute. reflexivity. }
  split; [reflexivity | discriminate].
Qed.

Lemma parse_ac_headervalue_zero_segments_witness :
  header_parts (lit " ; ;") = []
  /\ parse_ac_headervalue PY3 (lit " ; ;")
     = Ret (ac_error (lit "critical attr 'keydata' missing")).
Proof.
  assert (H : header_parts (lit " ; ;") = []) by (vm_compute; reflexivity).
  split; [exact H|].
  exact (proj1 (proj2 (parse_ac_headervalue_zero_segments (lit " ; ;") H))).
Defined.

(** ** Header selection *)




Lemma error_none_not_truthy r : error r = None -> error_truthy r = false.
Proof. unfold error_truthy. by intros ->. Qed.

Lemma collect_none_survive ver FL hs : forall res errs,
  Forall (fun h => exists r, rejected ver FL h r) hs ->
  exists rs,
    Forall2 (fun h r => parse_ac_headervalue ver h = Ret r) hs rs
    /\ collect_ac_headers ver FL hs res errs = Ret (res, errs ++ rs).
Proof.
  induction hs as [|h hs IH]; intros res errs Hall.
  - exists []. split; [constructor | by rewrite app_nil_r].
  - inversion Hall as [|? ? (r & Hp & Hr) Hrest]; subst.
    cbn [collect_ac_headers]. rewrite Hp.
    assert (negb (error_truthy r) && from_list_admits FL r = false) as ->.
    { destruct Hr as [-> | ->]; [done | by destruct (negb _)]. }
    destruct (IH res (errs ++ [r]) Hrest) as (rs & HF & ->).
    exists (r :: rs). split; [by constructor|].
    by rewrite <- app_assoc.
Qed.

(** Headers that all parse to a result only add to the two lists. *)
Lemma collect_extends ver FL hs : forall res errs,
  (forall h, In h hs -> exists r, parse_ac_headervalue ver h = Ret r) ->
  exists rs es,
    collect_ac_headers ver FL hs res errs = Ret (res ++ rs, errs ++ es).
Proof.
  induction hs as [|h hs IH]; intros res errs Hall.
  - exists [], []. by rewrite !app_nil_r.
  - cbn [collect_ac_headers].
    destruct (Hall h) as (r & ->); [by left|].
    assert (Hrest : forall h', In h' hs ->
                      exists r', parse_ac_headervalue ver h' = Ret r')
      by (intros h' Hh'; apply Hall; by right).
    destruct (negb (error_truthy r) && from_list_admits FL r).
    + destruct (IH (res ++ [r]) errs Hrest) as (rs & es & ->).
      exists (r :: rs), es. by rewrite <- app_assoc.
    + destruct (IH res (errs ++ [r]) Hrest) as (rs & es & ->).
      exists rs, (r :: es). by rewrite <- app_assoc.
Qed.

Lemma collect_survivor ver FL h r hs res errs :
  survives ver FL h r ->
  collect_ac_headers ver FL (h :: hs) res errs
  = collect_ac_headers ver FL hs (res ++ [r]) errs.
Proof.
  intros (Hp & He & Hf). cbn [collect_ac_headers].
  by rewrite Hp, (error_none_not_truthy r He), Hf.
Qed.

Lemma collect_app ver FL hs1 hs2 : forall res errs,
  collect_ac_headers ver FL (hs1 ++ hs2) res errs
  = match collect_ac_headers ver FL hs1 res errs with
    | Ret (res', errs') => collect_ac_headers ver FL hs2 res' errs'
    | Raise e => Raise e
    end.
Proof.
  induction hs1 as [|h hs1 IH]; intros res errs; [done|].
  cbn [app collect_ac_headers].
  destruct (parse_ac_headervalue ver h) as [r|e]; [|done].
  destruct (negb (error_truthy r) && from_list_admits FL r); apply IH.
Qed.

(** C4 as amended: outside a [multipart/report] message, when two of the
    Autocrypt headers parse without error and pass the allow-list, the
    answer is the ambiguity error, which is none of the headers, wherever
    the two stand and whatever the other headers parse to: more valid
    headers, error results or headers outside the allow-list. *)
Theorem selection_ambiguous ver msg FromList hs1 h1 hs2 h2 hs3 r1 r2 :
  content_type msg <> lit "multipart/report" ->
  autocrypt_headers msg = hs1 ++ h1 :: hs2 ++ h2 :: hs3 ->
  survives ver FromList h1 r1 ->
  survives ver FromList h2 r2 ->
  (forall h, In h (hs1 ++ hs2 ++ hs3) ->
             exists r, parse_ac_headervalue ver h = Ret r) ->
  parse_one_ac_header_from_msg ver msg FromList = Ret ambiguity_error
  /\ error ambiguity_error <> None
  /\ forall h r, In h (autocrypt_headers msg) ->
       survives ver FromList h r -> ambiguity_error <> r.
Proof.
  intros Hct Hhs Hs1 Hs2 Hall. split; [|split].
  - unfold parse_one_ac_header_from_msg.
    apply str_eqb_neq in Hct. rewrite Hct, Hhs.
    rewrite collect_app.
    destruct (collect_extends ver FromList hs1 [] []) as (rs1 & es1 & ->).
    { intros h Hh. apply Hall. apply in_or_app. by left. }
    rewrite (collect_survivor ver FromList h1 r1 _ _ _ Hs1).
    rewrite collect_app.
    destruct (collect_extends ver FromList hs2 (([] ++ rs1) ++ [r1])
                ([] ++ es1)) as (rs2 & es2 & ->).
    { intros h Hh. apply Hall. apply in_or_app. right.
      apply in_or_app. by left. }
    rewrite (collect_survivor ver FromList h2 r2 _ _ _ Hs2).
    destruct (collect_extends ver FromList hs3
                (((([] ++ rs1) ++ [r1]) ++ rs2) ++ [r2])
                (([] ++ es1) ++ es2)) as (rs3 & es3 & ->).
    { intros h Hh. apply Hall. apply in_or_app. right.
      apply in_or_app. by right. }
    assert (Hlen : 2 <= length ((((([] ++ rs1) ++ [r1]) ++ rs2) ++ [r2])
                                  ++ rs3)).
    { rewrite !length_app. cbn [length]. lia. }
    destruct (((((([] ++ rs1) ++ [r1]) ++ rs2) ++ [r2]) ++ rs3))
      as [|x [|y rest]]; cbn [length] in Hlen; try lia.
    reflexivity.
  - discriminate.
  - intros h r _ (_ & He & _) <-. discriminate.
Qed.


Lemma two_headers_survive ver :
  Forall (fun h => exists r, survives ver (Some [lit "a@b.org"]) h r)
    [lit "addr=a@b.org; keydata=QUJD"; lit "addr=a@b.org; keydata=QUJE"].
Proof.
  repeat constructor; eexists; unfold survives;
    (split; [destruct ver; vm_compute; reflexivity|]);
    split; vm_compute; reflexivity.
Qed.

(** Two valid headers for the sender among a header that fails to parse
    and a valid header for another address. *)
Lemma selection_ambiguous_witness :
  parse_one_ac_header_from_msg PY3
    (example_message "2020-03-03"
       [lit "foo=bar"; lit "addr=a@b.org; keydata=QUJD";
        lit "addr=x@y.org; keydata=QUJD"; lit "addr=a@b.org; keydata=QUJE"])
    (Some [lit "a@b.org"])
  = Ret ambiguity_error.
Proof.
  refine (proj1 (selection_ambiguous PY3
                   (example_message "2020-03-03"
                      [lit "foo=bar"; lit "addr=a@b.org; keydata=QUJD";
                       lit "addr=x@y.org; keydata=QUJD";
                       lit "addr=a@b.org; keydata=QUJE"])
                   (Some [lit "a@b.org"])
                   [lit "foo=bar"] (lit "addr=a@b.org; keydata=QUJD")
                   [lit "addr=x@y.org; keydata=QUJD"]
                   (lit "addr=a@b.org; keydata=QUJE") []
                   (mkACParseResult (Some ["A"%byte; "B"%byte; "C"%byte])
                      (Some (lit "a@b.org")) (Some (lit "nopreference"))
                      (Some ∅) None)
                   (mkACParseResult (Some ["A"%byte; "B"%byte; "D"%byte])
                      (Some (lit "a@b.org")) (Some (lit "nopreference"))
                      (Some ∅) None)
                   _ _ _ _ _)).
  - vm_compute. discriminate.
  - reflexivity.
  - split; [vm_compute; reflexivity|]. split; vm_compute; reflexivity.
  - split; [vm_compute; reflexivity|]. split; vm_compute; reflexivity.
  - intros h [<- | [<- | []]]; eexists; vm_compute; reflexivity.
Defined.

(** The claim without the content-type condition fails: a delivery report
    with two valid headers is answered with the report error. *)
Lemma selection_ambiguous_report_counterexample :
  ~ (forall ver msg FromList,
       2 <= length (autocrypt_headers msg) ->
       Forall (fun h => exists r, survives ver FromList h r)
              (autocrypt_headers msg) ->
       parse_one_ac_header_from_msg ver msg FromList = Ret ambiguity_error).
Proof.
  intros H.
  specialize (H PY3 (two_header_message "multipart/report")
                (Some [lit "a@b.org"])).
  assert (Hl : 2 <= length (autocrypt_headers
                              (two_header_message "multipart/report")))
    by (simpl; lia).
  specialize (H Hl (two_headers_survive PY3)).
  vm_compute in H. discriminate H.
Qed.

(** With no survivor and at least one header, selection hands back
    whatever the first header parsed to. *)
Lemma selection_no_survivor_returns_first ver msg FromList h hs :
  content_type msg <> lit "multipart/report" ->
  autocrypt_headers msg = h :: hs ->
  Forall (fun h => exists r, rejected ver FromList h r)
         (autocrypt_headers msg) ->
  parse_one_ac_header_from_msg ver msg FromList
  = parse_ac_headervalue ver h.
Proof.
  intros Hct Hhs Hall. unfold parse_one_ac_header_from_msg.
  apply str_eqb_neq in Hct. rewrite Hct.
  destruct (collect_none_survive ver FromList _ [] [] Hall) as (rs & HF & ->).
  rewrite Hhs in HF. inversion HF as [|? r ? rs' Hr Hrs]; subst.
  cbn [app]. by rewrite Hr.
Qed.

(** C7, at the input where the code departs from it: one header that
    parses without error but names an address outside the allow-list.
    There is no surviving header, and selection returns that header as it
    is: no error reason, and the excluded address in [addr]. *)
Theorem selection_returns_excluded_header :
  let msg := mkMessage (lit "text/plain") [lit "addr=a@b.org; keydata=QUJD"]
               (Some (lit "c@d.org")) None in
  let FromList := Some [lit "c@d.org"] in
  forall ver,
    (exists r, rejected ver FromList (lit "addr=a@b.org; keydata=QUJD") r)
    /\ exists r,
         parse_one_ac_header_from_msg ver msg FromList = Ret r
         /\ error r = None
         /\ addr r = Some (lit "a@b.org")
         /\ keydata r = Some ["A"%byte; "B"%byte; "C"%byte].
Proof.
  intros msg FromList ver. split.
  - eexists. split; [destruct ver; vm_compute; reflexivity|].
    right. vm_compute. reflexivity.
  - eexists. split; [destruct ver; vm_compute; reflexivity|].
    repeat split.
Qed.

(** ** Repeated attributes in one header value *)


(** When every segment is acceptable on its own, the loop runs to its end
    and each entry of [result_dict] is the one written by the last segment
    of that name (or the initial one when there is none). *)
(** Closes the equation between the entry found after the remaining
    segments and the one the last-occurrence reading predicts. *)
Ltac last_wins k parts :=
  destruct (last_setting (lit k) parts); [done|];
  try match goal with
      | |- context [str_eqb ?a ?b] =>
          let E := fresh "E" in
          destruct (str_eqb a b) eqn:E;
          [apply str_eqb_eq in E; try discriminate E|]
      end;
  rewrite ?lookup_insert_eq; rewrite ?lookup_insert_ne by discriminate;
  try done.


Lemma last_setting_in name parts : forall v,
  last_setting name parts = Some v ->
  exists x, In x parts /\ setting x = Some (name, v).
Proof.
  induction parts as [|x parts IH]; intros v; cbn [last_setting]; [done|].
  destruct (last_setting name parts) as [w|].
  - intros [= ->]. destruct (IH v eq_refl) as (y & Hy & Hs).
    exists y. split; [by right | done].
  - destruct (setting x) as [[n w]|] eqn:Hs; [|done].
    destruct (str_eqb n name) eqn:E; [|done].
    apply str_eqb_eq in E. intros [= ->]. subst n.
    exists x. split; [by left | done].
Qed.

Lemma last_keydata_decodes parts k :
  Forall (fun x => setting_ok x = true) parts ->
  last_setting (lit "keydata") parts = Some k ->
  exists b, keydata_of k = Some b.
Proof.
  intros Hall Hk. destruct (last_setting_in _ _ _ Hk) as (x & Hin & Hs).
  rewrite List.Forall_forall in Hall. specialize (Hall x Hin).
  unfold setting_ok in Hall. rewrite Hs in Hall.
  rewrite str_eqb_refl in Hall. unfold keydata_of.
  destruct (decode_keydata _) as [b|]; [by exists b | discriminate].
Qed.


Lemma forallb_setting_ok parts :
  forallb setting_ok parts = true ->
  Forall (fun x => setting_ok x = true) parts.
Proof.
  intros H. apply List.Forall_forall. by apply forallb_forall.
Qed.


(** ** Base64: decoding what the encoder wrote *)

Lemma forallb_below (P : N -> bool) (k : nat) :
  forallb P (map N.of_nat (seq 0 k)) = true ->
  forall n, (n < N.of_nat k)%N -> P n = true.
Proof.
  intros H n Hn. rewrite forallb_forall in H. apply H.
  apply in_map_iff. exists (N.to_nat n). split; [lia|].
  apply in_seq. lia.
Qed.

Lemma byte_below b : (Byte.to_N b < N.of_nat 256)%N.
Proof. pose proof (Byte.to_N_bounded b). lia. Qed.

(** A check that holds for every pair of numbers below 256 holds for
    every pair of bytes. *)
Lemma byte_pairs (P : N -> N -> bool) :
  forallb (fun x => forallb (P x) (map N.of_nat (seq 0 256)))
          (map N.of_nat (seq 0 256)) = true ->
  forall a b, P (Byte.to_N a) (Byte.to_N b) = true.
Proof.
  intros H a b.
  apply (forallb_below (P (Byte.to_N a)) 256); [|apply byte_below].
  apply (forallb_below
           (fun x => forallb (P x) (map N.of_nat (seq 0 256))) 256 H).
  apply byte_below.
Qed.

Lemma byte_of_to_N a : byte_of_N (Byte.to_N a) = a.
Proof.
  unfold byte_of_N. rewrite N.mod_small by apply byte_below.
  by rewrite Byte.of_to_N.
Qed.

(** The alphabet table and its inverse. *)
Lemma table_roundtrip s :
  (s < 64)%N ->
  table_a2b_base64 (table_b2a_base64 s) = Some s
  /\ Ascii.eqb (table_b2a_base64 s) BASE64_PAD = false.
Proof.
  intros Hs.
  pose (P := fun s =>
     bool_decide (table_a2b_base64 (table_b2a_base64 s) = Some s)
     && negb (Ascii.eqb (table_b2a_base64 s) BASE64_PAD)).
  assert (HP : P s = true).
  { apply (forallb_below P 64); [vm_compute; reflexivity | exact Hs]. }
  unfold P in HP. apply andb_true_iff in HP as [H1 H2].
  apply bool_decide_eq_true in H1. apply negb_true_iff in H2. done.
Qed.

Lemma sextets_small a b :
  let x := Byte.to_N a in
  let y := Byte.to_N b in
  (sextet1 x < 64 /\ sextet2 x y < 64 /\ sextet3 x y < 64 /\ sextet4 x < 64
   /\ sextet2 x 0 < 64 /\ sextet3 x 0 < 64)%N.
Proof.
  pose (P := fun x y =>
     ((sextet1 x <? 64) && (sextet2 x y <? 64) && (sextet3 x y <? 64)
      && (sextet4 x <? 64) && (sextet2 x 0 <? 64) && (sextet3 x 0 <? 64))%N).
  assert (HP : P (Byte.to_N a) (Byte.to_N b) = true).
  { apply byte_pairs. vm_compute. reflexivity. }
  unfold P in HP. cbv zeta.
  repeat (apply andb_true_iff in HP as [HP ?]).
  repeat split; by apply N.ltb_lt.
Qed.

(** What the decoder writes from consecutive six-bit groups. *)
Lemma regroup a b :
  let x := Byte.to_N a in
  let y := Byte.to_N b in
  byte_of_N (N.lor (N.shiftl (sextet1 x) 2) (N.shiftr (sextet2 x y) 4)) = a
  /\ N.land (sextet2 x y) 15 = N.shiftr y 4
  /\ byte_of_N (N.lor (N.shiftl (N.shiftr x 4) 4) (N.shiftr (sextet3 x y) 2))
     = a
  /\ byte_of_N (N.lor (N.shiftl (N.land (sextet3 x y) 3) 6) (sextet4 y)) = b.
Proof.
  pose (P := fun x y =>
     ((N.lor (N.shiftl (sextet1 x) 2) (N.shiftr (sextet2 x y) 4) =? x)
      && (N.land (sextet2 x y) 15 =? N.shiftr y 4)
      && (N.lor (N.shiftl (N.shiftr x 4) 4) (N.shiftr (sextet3 x y) 2) =? x)
      && (N.lor (N.shiftl (N.land (sextet3 x y) 3) 6) (sextet4 y) =? y))%N).
  assert (HP : P (Byte.to_N a) (Byte.to_N b) = true).
  { apply byte_pairs. vm_compute. reflexivity. }
  unfold P in HP. cbv zeta.
  repeat (apply andb_true_iff in HP as [HP ?]).
  repeat match goal with H : (_ =? _)%N = true |- _ =>
                           apply N.eqb_eq in H end.
  repeat split; try done.
  all: match goal with H : ?t = _ |- byte_of_N ?t = _ => rewrite H end;
    apply byte_of_to_N.
Qed.

(** One alphabet character read by the decoder. *)
Lemma a2b_step s rest qp lc pads :
  (s < 64)%N ->
  a2b_base64 (table_b2a_base64 s :: rest) qp lc pads
  = match qp with
    | 0 => a2b_base64 rest 1 s 0
    | 1 => emit (byte_of_N (N.lor (N.shiftl lc 2) (N.shiftr s 4)))
                (a2b_base64 rest 2 (N.land s 15) 0)
    | 2 => emit (byte_of_N (N.lor (N.shiftl lc 4) (N.shiftr s 2)))
                (a2b_base64 rest 3 (N.land s 3) 0)
    | _ => emit (byte_of_N (N.lor (N.shiftl lc 6) s))
                (a2b_base64 rest 0 0%N 0)
    end.
Proof.
  intros Hs. destruct (table_roundtrip s Hs) as [Ht Hp].
  cbn [a2b_base64]. by rewrite Hp, Ht.
Qed.

Lemma bytes_ind3 (P : bytes -> Prop) :
  P [] ->
  (forall a, P [a]) ->
  (forall a b, P [a; b]) ->
  (forall a b c rest, P rest -> P (a :: b :: c :: rest)) ->
  forall bs, P bs.
Proof.
  intros H0 H1 H2 H3.
  fix go 1. intros [|a [|b [|c rest]]].
  - exact H0.
  - apply H1.
  - apply H2.
  - apply H3, go.
Qed.

(** [b64decode(b64encode(bs)) == bs], at the level of the decoder loop. *)
Lemma a2b_b64encode bs : a2b_base64 (b64encode bs) 0 0%N 0 = Some bs.
Proof.
  induction bs as [|a|a b|a b c rest IH] using bytes_ind3.
  - reflexivity.
  - destruct (sextets_small a Byte.x00) as (S1 & S2 & _).
    destruct (regroup a Byte.x00) as (R1 & _).
    cbn [b64encode]. change (Byte.to_N Byte.x00) with 0%N in *.
    rewrite !a2b_step by done. rewrite R1. reflexivity.
  - destruct (sextets_small a b) as (S1 & S2 & _).
    destruct (sextets_small b Byte.x00) as (_ & _ & S3 & _).
    destruct (regroup a b) as (R1 & R2 & _).
    destruct (regroup b Byte.x00) as (_ & _ & R3 & _).
    cbn [b64encode]. change (Byte.to_N Byte.x00) with 0%N in *.
    rewrite !a2b_step by done. rewrite R1, R2, R3. reflexivity.
  - destruct (sextets_small a b) as (S1 & S2 & _).
    destruct (sextets_small b c) as (_ & _ & S3 & _).
    destruct (sextets_small c c) as (_ & _ & _ & S4 & _).
    destruct (regroup a b) as (R1 & R2 & _).
    destruct (regroup b c) as (_ & _ & R3 & R4).
    cbn [b64encode].
    rewrite !a2b_step by done. rewrite R1, R2, R3, R4, IH. reflexivity.
Qed.

Lemma b64char_table s : (s < 64)%N -> b64char (table_b2a_base64 s) = true.
Proof.
  intros Hs. unfold b64char. by destruct (table_roundtrip s Hs) as [-> _].
Qed.

Lemma b64encode_chars bs : Forall (fun c => b64char c = true) (b64encode bs).
Proof.
  induction bs as [|a|a b|a b c rest IH] using bytes_ind3; cbn [b64encode].
  - constructor.
  - destruct (sextets_small a Byte.x00) as (S1 & S2 & _).
    change (Byte.to_N Byte.x00) with 0%N in *.
    repeat constructor; by apply b64char_table.
  - destruct (sextets_small a b) as (S1 & S2 & _).
    destruct (sextets_small b Byte.x00) as (_ & _ & S3 & _).
    change (Byte.to_N Byte.x00) with 0%N in *.
    repeat constructor; by apply b64char_table.
  - destruct (sextets_small a b) as (S1 & S2 & _).
    destruct (sextets_small b c) as (_ & _ & S3 & _).
    destruct (sextets_small c c) as (_ & _ & _ & S4 & _).
    repeat (constructor; [by apply b64char_table|]). exact IH.
Qed.

Lemma ascii_all (P : ascii -> bool) :
  forallb (fun n => P (ascii_of_N n)) (map N.of_nat (seq 0 256)) = true ->
  forall c, P c = true.
Proof.
  intros H c. rewrite <- (ascii_N_embedding c).
  apply (forallb_below (fun n => P (ascii_of_N n)) 256 H).
  pose proof (N_ascii_bounded c). lia.
Qed.

(** An encoder character is ASCII, is not whitespace, and is neither the
    separator nor a line break. *)
Lemma b64char_plain c :
  b64char c = true ->
  is_ascii c = true /\ isspace c = false /\ Ascii.eqb c ";"%char = false
  /\ Ascii.eqb (ch 10) c = false.
Proof.
  intros Hc.
  pose (P := fun c =>
     implb (b64char c)
           (is_ascii c && negb (isspace c) && negb (Ascii.eqb c ";"%char)
            && negb (Ascii.eqb (ch 10) c))).
  assert (HP : P c = true) by (apply ascii_all; vm_compute; reflexivity).
  unfold P in HP. rewrite Hc in HP. cbn [implb] in HP.
  repeat (apply andb_true_iff in HP as [HP ?]).
  repeat split; try done; by apply negb_true_iff.
Qed.

Lemma b64decode_b64encode bs : b64decode (b64encode bs) = Ret bs.
Proof.
  unfold b64decode.
  assert (forallb is_ascii (b64encode bs) = true) as ->.
  { apply forallb_forall. intros c Hc.
    pose proof (b64encode_chars bs) as H.
    rewrite List.Forall_forall in H. by apply b64char_plain, H. }
  by rewrite a2b_b64encode.
Qed.

(** ** Text operations *)

Lemma split_ws_concat s : concat (split_ws s) = List.filter nonspace s.
Proof.
  unfold nonspace.
  induction s as [|c s IH]; [done|]. cbn [split_ws List.filter].
  destruct (isspace c) eqn:Hc; cbn [negb]; [done|].
  destruct s as [|c' s']; [done|].
  destruct (isspace c') eqn:Hc'.
  - cbn [concat]. rewrite IH. reflexivity.
  - destruct (split_ws (c' :: s')) as [|h t] eqn:Hs.
    + cbn [concat] in *. by rewrite <- IH.
    + cbn [concat] in *. rewrite <- IH. reflexivity.
Qed.

Lemma lstrip_filter s : List.filter nonspace (lstrip s) = List.filter nonspace s.
Proof.
  unfold nonspace. induction s as [|c s IH]; [done|]. cbn [lstrip List.filter].
  destruct (isspace c) eqn:Hc; cbn [negb List.filter]; [done|].
  by rewrite Hc.
Qed.

Lemma rstrip_nil_filter s : rstrip s = [] -> List.filter nonspace s = [].
Proof.
  unfold nonspace. induction s as [|c s IH]; [done|]. cbn [rstrip List.filter].
  destruct (rstrip s) as [|r rs]; [|discriminate].
  destruct (isspace c); [|discriminate]. intros _. by apply IH.
Qed.

Lemma rstrip_filter s : List.filter nonspace (rstrip s) = List.filter nonspace s.
Proof.
  induction s as [|c s IH]; [done|]. cbn [rstrip].
  destruct (rstrip s) as [|r rs] eqn:Hr.
  - pose proof (rstrip_nil_filter s Hr) as Hn.
    cbn [List.filter]. rewrite Hn. unfold nonspace.
    destruct (isspace c) eqn:Hc; cbn [negb List.filter]; [done|].
    by rewrite Hc.
  - cbn [List.filter] in *. by rewrite IH.
Qed.

Lemma strip_filter s : List.filter nonspace (strip s) = List.filter nonspace s.
Proof. unfold strip. by rewrite rstrip_filter, lstrip_filter. Qed.

(** After a text that [rstrip] leaves alone, [rstrip] only works on what
    follows. *)
Lemma rstrip_app_fixed a b : rstrip a = a -> rstrip (a ++ b) = a ++ rstrip b.
Proof.
  induction a as [|c a IH]; [done|]. cbn [rstrip app].
  destruct (rstrip a) as [|r rs] eqn:Hr.
  - destruct (isspace c) eqn:Hc; [discriminate|].
    intros [= <-]. cbn [app]. by destruct (rstrip b).
  - intros [= Ha]. rewrite IH by done. by rewrite <- Ha.
Qed.

Lemma lstrip_length s : length (lstrip s) <= length s.
Proof.
  induction s as [|c s IH]; [done|]. cbn [lstrip].
  destruct (isspace c); simpl; lia.
Qed.

Lemma lstrip_same_length s : length (lstrip s) = length s -> lstrip s = s.
Proof.
  destruct s as [|c s]; [done|]. cbn [lstrip].
  destruct (isspace c); [|done].
  pose proof (lstrip_length s). simpl. lia.
Qed.

Lemma rstrip_length s : length (rstrip s) <= length s.
Proof.
  induction s as [|c s IH]; [done|]. cbn [rstrip].
  destruct (rstrip s); [destruct (isspace c)|]; simpl in *; lia.
Qed.

Lemma rstrip_same_length s : length (rstrip s) = length s -> rstrip s = s.
Proof.
  induction s as [|c s IH]; [done|]. cbn [rstrip].
  pose proof (rstrip_length s) as Hl.
  destruct (rstrip s) as [|r rs] eqn:Hr.
  - destruct (isspace c); simpl in *; [lia|].
    intros H. destruct s; [done | simpl in H; lia].
  - simpl in *. intros H. rewrite IH; [done | lia].
Qed.

(** A text that [strip] leaves alone has no whitespace at either end. *)
Lemma strip_fixed s : strip s = s -> lstrip s = s /\ rstrip s = s.
Proof.
  unfold strip. intros H.
  pose proof (lstrip_length s) as H1.
  pose proof (rstrip_length (lstrip s)) as H2.
  assert (Hl : lstrip s = s).
  { apply lstrip_same_length. rewrite H in H2. lia. }
  split; [done|]. by rewrite Hl in H.
Qed.

Lemma rstrip_in c s : In c (rstrip s) -> In c s.
Proof.
  revert c. induction s as [|d s IH]; intros c; [done|]. cbn [rstrip].
  destruct (rstrip s) as [|r rs].
  - destruct (isspace d); [done|]. intros [->|[]]. by left.
  - intros [->|H]; [by left|]. right. by apply IH.
Qed.

Lemma split_char_none sep s : ~ In sep s -> split_char sep s = [s].
Proof.
  induction s as [|c s IH]; [done|]. intros H. cbn [split_char].
  destruct (Ascii.eqb c sep) eqn:E.
  - apply Ascii.eqb_eq in E. subst. exfalso. apply H. by left.
  - rewrite IH; [done|]. intros Hin. apply H. by right.
Qed.

Lemma split_char_app sep a b :
  ~ In sep a -> split_char sep (a ++ sep :: b) = a :: split_char sep b.
Proof.
  induction a as [|c a IH]; intros H.
  - cbn [app split_char]. by rewrite Ascii.eqb_refl.
  - cbn [app split_char]. destruct (Ascii.eqb c sep) eqn:E.
    + apply Ascii.eqb_eq in E. subst. exfalso. apply H. by left.
    + rewrite IH; [done|]. intros Hin. apply H. by right.
Qed.

Lemma split_once_app sep a b :
  ~ In sep a -> split_once sep (a ++ sep :: b) = [a; b].
Proof.
  induction a as [|c a IH]; intros H.
  - cbn [app split_once]. by rewrite Ascii.eqb_refl.
  - cbn [app split_once]. destruct (Ascii.eqb c sep) eqn:E.
    + apply Ascii.eqb_eq in E. subst. exfalso. apply H. by left.
    + rewrite IH; [done|]. intros Hin. apply H. by right.
Qed.

(** ** The line-wrapped key *)

Lemma in_firstn_skipn (v : str) c n i : In c (firstn n (skipn i v)) -> In c v.
Proof.
  intros H.
  rewrite <- (firstn_skipn i v). apply in_or_app. right.
  rewrite <- (firstn_skipn n (skipn i v)). apply in_or_app. by left.
Qed.

Lemma slice_step (v : str) i step :
  slice v i (i + step) = firstn step (skipn i v).
Proof. unfold slice. f_equal. lia. Qed.

Lemma concat_slices_prefix (v : str) step m :
  concat (map (fun i => slice v i (i + step)) (map (fun k => k * step) (seq 0 m)))
  = firstn (m * step) v.
Proof.
  induction m as [|m IH]; [done|].
  rewrite seq_S, !map_app, concat_app, IH. cbn [map concat plus].
  rewrite app_nil_r, slice_step, take_take_drop.
  f_equal. lia.
Qed.

(** The chunks cut by [range(0, len(value), maxlen)] make up the value. *)
Lemma concat_slices (v : str) step :
  0 < step ->
  concat (map (fun i => slice v i (i + step)) (py_range (length v) step)) = v.
Proof.
  intros Hs. unfold py_range. rewrite concat_slices_prefix.
  apply firstn_all2.
  pose proof (Nat.div_mod_eq (length v + step - 1) step) as Hd.
  pose proof (Nat.mod_upper_bound (length v + step - 1) step) as Hm.
  rewrite (Nat.mul_comm _ step). lia.
Qed.

Lemma filter_indented (v : str) (idx : list nat) :
  forallb nonspace v = true ->
  List.filter nonspace
    (concat (map (fun i => lit "  " ++ slice v i (i + 78) ++ [ch 10]) idx))
  = concat (map (fun i => slice v i (i + 78)) idx).
Proof.
  intros Hv. induction idx as [|i idx IH]; [done|].
  cbn [map concat]. rewrite !List.filter_app, IH.
  change (List.filter nonspace (lit "  ")) with (@nil ascii).
  change (List.filter nonspace [ch 10]) with (@nil ascii).
  rewrite app_nil_r. cbn [app]. f_equal.
  apply forallb_filter_id, forallb_forall. intros c Hc.
  rewrite forallb_forall in Hv. apply Hv.
  unfold slice in Hc. by apply in_firstn_skipn in Hc.
Qed.

Lemma in_indented (v : str) (idx : list nat) c :
  In c (concat (map (fun i => lit "  " ++ slice v i (i + 78) ++ [ch 10]) idx)) ->
  In c v \/ isspace c = true.
Proof.
  induction idx as [|i idx IH]; [done|]. cbn [map concat].
  intros H. apply in_app_or in H as [H|H]; [|by apply IH].
  apply in_app_or in H as [H|H].
  - right. destruct H as [<-|[<-|[]]]; reflexivity.
  - apply in_app_or in H as [H|H].
    + left. unfold slice in H. by apply in_firstn_skipn in H.
    + right. destruct H as [<-|[]]. reflexivity.
Qed.

(** What [indented_split] returns for encoder output: the key with
    whitespace in between, and nothing else. *)
Lemma indented_split_b64 key :
  Forall (fun c => b64char c = true) key ->
  exists body,
    indented_split key = Ret body
    /\ List.filter nonspace body = key
    /\ forall c, In c body -> In c key \/ isspace c = true.
Proof.
  intros Hkey. rewrite List.Forall_forall in Hkey.
  unfold indented_split.
  assert (existsb (Ascii.eqb (ch 10)) key = false) as ->.
  { apply not_true_is_false. intros H.
    apply existsb_exists in H as (c & Hc & He).
    destruct (b64char_plain c (Hkey c Hc)) as (_ & _ & _ & Hn). congruence. }
  eexists. split; [reflexivity|]. split.
  - rewrite rstrip_filter, filter_indented.
    + apply concat_slices. lia.
    + apply forallb_forall. intros c Hc. unfold nonspace.
      by destruct (b64char_plain c (Hkey c Hc)) as (_ & -> & _).
  - intros c Hc. apply rstrip_in in Hc. by apply in_indented in Hc.
Qed.

(** ** From the encoder to the parser *)

Lemma split_char_join parts : forall x,
  Forall (fun p => ~ In ";"%char p) (x :: parts) ->
  split_char ";"%char (join (lit "; ") (x :: parts))
  = x :: map (cons " "%char) parts.
Proof.
  induction parts as [|y parts IH]; intros x Hall.
  - inversion Hall; subst. cbn [join map]. by apply split_char_none.
  - inversion Hall as [|? ? Hx Hrest]; subst.
    change (join (lit "; ") (x :: y :: parts))
      with (x ++ ";"%char :: " "%char :: join (lit "; ") (y :: parts)).
    rewrite split_char_app by done.
    cbn [split_char]. change (Ascii.eqb " " ";") with false. cbn iota.
    rewrite (IH y Hrest). reflexivity.
Qed.

Ltac eval_str_eqb :=
  repeat match goal with
         | |- context [str_eqb (lit ?a) (lit ?b)] =>
             let v := eval vm_compute in (str_eqb (lit a) (lit b)) in
             change (str_eqb (lit a) (lit b)) with v
         end.

Ltac read_setting H name :=
  match type of H with
  | Some (strip ?n, strip ?w) = Some (_, ?v) =>
      let Hn := fresh "Hn" in
      let Hv := fresh "Hv" in
      assert (Hn : strip n = lit name) by congruence;
      assert (Hv : strip w = v) by congruence;
      rewrite Hn, Hv; clear H Hn
  end.

Lemma parse_parts_addr x parts rd ea v :
  setting x = Some (lit "addr", v) ->
  parse_parts (x :: parts) rd ea
  = parse_parts parts (<[lit "addr" := PStr v]> rd) ea.
Proof.
  unfold setting. cbn [parse_parts].
  destruct (split_once "=" x) as [|n [|w [|? ?]]]; try discriminate.
  intros H. read_setting H "addr"%string. eval_str_eqb. reflexivity.
Qed.

Lemma parse_parts_prefer_encrypt x parts rd ea v :
  setting x = Some (lit "prefer-encrypt", v) ->
  v = lit "nopreference" \/ v = lit "mutual" ->
  parse_parts (x :: parts) rd ea
  = parse_parts parts (<[lit "prefer_encrypt" := PStr v]> rd) ea.
Proof.
  unfold setting. cbn [parse_parts].
  destruct (split_once "=" x) as [|n [|w [|? ?]]]; try discriminate.
  intros H Hp. read_setting H "prefer-encrypt"%string. eval_str_eqb.
  cbn iota.
  assert (str_eqb v (lit "nopreference") || str_eqb v (lit "mutual") = true)
    as ->; [|done].
  apply orb_true_iff. destruct Hp as [Hp|Hp]; [left|right];
    by apply str_eqb_eq.
Qed.

Lemma parse_parts_keydata x parts rd ea v b :
  setting x = Some (lit "keydata", v) ->
  decode_keydata (concat (split_ws v)) = Ret b ->
  parse_parts (x :: parts) rd ea
  = parse_parts parts (<[lit "keydata" := PBytes b]> rd) ea.
Proof.
  unfold setting. cbn [parse_parts].
  destruct (split_once "=" x) as [|n [|w [|? ?]]]; try discriminate.
  intros H Hd. read_setting H "keydata"%string. eval_str_eqb. cbn iota.
  by rewrite Hd.
Qed.

Lemma nonempty_kept (x : str) : x <> [] -> negb (str_eqb x []) = true.
Proof. intros H. apply negb_true_iff. by apply str_eqb_neq. Qed.

(** The segment the encoder writes for the address. *)
Lemma addr_segment a :
  strip a = a ->
  strip (lit "addr=" ++ a) = lit "addr=" ++ a
  /\ setting (lit "addr=" ++ a) = Some (lit "addr", a).
Proof.
  intros Ha. destruct (strip_fixed a Ha) as [_ Hr].
  split.
  - unfold strip. change (lstrip (lit "addr=" ++ a)) with (lit "addr=" ++ a).
    rewrite rstrip_app_fixed by reflexivity. by rewrite Hr.
  - unfold setting.
    change (lit "addr=" ++ a) with (lit "addr" ++ "="%char :: a).
    rewrite split_once_app.
    + by rewrite Ha.
    + cbn. intros H. repeat destruct H as [H|H]; try discriminate H. done.
Qed.

(** The segment the encoder writes for the key. *)
Lemma keydata_segment body :
  exists w,
    strip (" "%char :: lit "keydata=" ++ ch 10 :: body) = lit "keydata=" ++ w
    /\ setting (lit "keydata=" ++ w) = Some (lit "keydata", strip w)
    /\ List.filter nonspace (strip w) = List.filter nonspace body.
Proof.
  exists (rstrip (ch 10 :: body)). split; [|split].
  - unfold strip.
    change (lstrip (" "%char :: lit "keydata=" ++ ch 10 :: body))
      with (lit "keydata=" ++ ch 10 :: body).
    by rewrite rstrip_app_fixed by reflexivity.
  - unfold setting.
    change (lit "keydata=" ++ rstrip (ch 10 :: body))
      with (lit "keydata" ++ "="%char :: rstrip (ch 10 :: body)).
    rewrite split_once_app; [done|].
    cbn. intros H. repeat destruct H as [H|H]; try discriminate H. done.
  - rewrite strip_filter, rstrip_filter. reflexivity.
Qed.

Lemma parse_finish_full rd ea b a p :
  rd !! lit "keydata" = Some (PBytes b) ->
  rd !! lit "addr" = Some (PStr a) ->
  rd !! lit "prefer_encrypt" = Some (PStr p) ->
  parse_finish rd ea = mkACParseResult (Some b) (Some a) (Some p) (Some ea) None.
Proof. intros Hk Ha Hp. unfold parse_finish. by rewrite Hk, Ha, Hp. Qed.

Lemma truthy_cons ver (x : str) parts :
  filter_result_truthy ver (x :: parts) = true.
Proof. by destruct ver. Qed.

Lemma written_key_decodes bs body w :
  List.filter nonspace body = b64encode bs ->
  List.filter nonspace (strip w) = List.filter nonspace body ->
  decode_keydata (concat (split_ws (strip w))) = Ret bs.
Proof.
  intros Hb Hw. unfold decode_keydata.
  rewrite split_ws_concat, Hw, Hb. apply b64decode_b64encode.
Qed.

Lemma not_in_app_lit (p s : str) c :
  existsb (Ascii.eqb c) p = false -> ~ In c s -> ~ In c (p ++ s).
Proof.
  intros Hp Hs H. apply in_app_or in H as [H|H]; [|done].
  assert (existsb (Ascii.eqb c) p = true); [|congruence].
  apply existsb_exists. exists c. split; [done | apply Ascii.eqb_refl].
Qed.

(** Parsing the header written without a preference. *)
Lemma parse_written_plain ver a bs body :
  ~ In ";"%char a ->
  strip a = a ->
  ~ In ";"%char body ->
  List.filter nonspace body = b64encode bs ->
  parse_ac_headervalue ver
    (join (lit "; ") [lit "addr=" ++ a; lit "keydata=" ++ [ch 10] ++ body])
  = Ret (mkACParseResult (Some bs) (Some a) (Some (lit "nopreference"))
           (Some ∅) None).
Proof.
  intros Ha Hs Hb Hf.
  destruct (addr_segment a Hs) as [HA1 HA2].
  destruct (keydata_segment body) as (w & HK1 & HK2 & HK3).
  unfold parse_ac_headervalue, header_parts.
  rewrite split_char_join; cycle 1.
  { repeat constructor.
    - by apply not_in_app_lit.
    - apply not_in_app_lit; [reflexivity|]. by apply not_in_app_lit. }
  cbn [map].
  change (" "%char :: lit "keydata=" ++ [ch 10] ++ body)
    with (" "%char :: lit "keydata=" ++ ch 10 :: body).
  rewrite HA1, HK1. cbn [List.filter].
  rewrite !nonempty_kept by discriminate.
  rewrite truthy_cons. cbn [negb].
  rewrite (parse_parts_addr _ _ _ _ a HA2).
  rewrite (parse_parts_keydata _ _ _ _ (strip w) bs HK2
             (written_key_decodes bs body w Hf HK3)).
  cbn [parse_parts]. apply f_equal. apply parse_finish_full.
  - apply lookup_insert_eq.
  - rewrite lookup_insert_ne by discriminate. apply lookup_insert_eq.
  - rewrite !lookup_insert_ne by discriminate. apply lookup_singleton_eq.
Qed.

(** Parsing the header written with [prefer-encrypt=mutual]. *)
Lemma parse_written_mutual ver a bs body :
  ~ In ";"%char a ->
  strip a = a ->
  ~ In ";"%char body ->
  List.filter nonspace body = b64encode bs ->
  parse_ac_headervalue ver
    (join (lit "; ") [lit "addr=" ++ a; lit "prefer-encrypt=" ++ lit "mutual";
                      lit "keydata=" ++ [ch 10] ++ body])
  = Ret (mkACParseResult (Some bs) (Some a) (Some (lit "mutual"))
           (Some ∅) None).
Proof.
  intros Ha Hs Hb Hf.
  destruct (addr_segment a Hs) as [HA1 HA2].
  destruct (keydata_segment body) as (w & HK1 & HK2 & HK3).
  unfold parse_ac_headervalue, header_parts.
  rewrite split_char_join; cycle 1.
  { repeat constructor.
    - by apply not_in_app_lit.
    - apply not_in_app_lit; [reflexivity|]. cbn. intuition discriminate.
    - apply not_in_app_lit; [reflexivity|]. by apply not_in_app_lit. }
  cbn [map].
  change (" "%char :: lit "keydata=" ++ [ch 10] ++ body)
    with (" "%char :: lit "keydata=" ++ ch 10 :: body).
  change (strip (" "%char :: lit "prefer-encrypt=" ++ lit "mutual"))
    with (lit "prefer-encrypt=mutual").
  rewrite HA1, HK1. cbn [List.filter].
  rewrite !nonempty_kept by discriminate.
  rewrite truthy_cons. cbn [negb].
  rewrite (parse_parts_addr _ _ _ _ a HA2).
  rewrite (parse_parts_prefer_encrypt _ _ _ _ (lit "mutual"));
    [|reflexivity | by right].
  rewrite (parse_parts_keydata _ _ _ _ (strip w) bs HK2
             (written_key_decodes bs body w Hf HK3)).
  cbn [parse_parts]. apply f_equal. apply parse_finish_full.
  - apply lookup_insert_eq.
  - rewrite !lookup_insert_ne by discriminate. apply lookup_insert_eq.
  - rewrite lookup_insert_ne by discriminate. apply lookup_insert_eq.
Qed.

(** C1 as amended: for an address without [;] and without whitespace at
    its ends, non-empty key material and a preference of the grammar, the
    encoder returns a header, and parsing it gives back the address, the
    key material and the preference (the default when it was omitted),
    with no error. *)
Theorem header_roundtrip ver a bs pref :
  bs <> [] ->
  ~ In ";"%char a ->
  strip a = a ->
  valid_preference pref ->
  exists header,
    make_ac_header_value a (KBytes bs) pref = Ret header
    /\ parse_ac_headervalue ver header
       = Ret (mkACParseResult (Some bs) (Some a)
                (Some (default (lit "nopreference") pref)) (Some ∅) None).
Proof.
  intros Hbs Ha Hs Hp.
  destruct (indented_split_b64 (b64encode bs) (b64encode_chars bs))
    as (body & Hbody & Hf & Hin).
  assert (Hb : ~ In ";"%char body).
  { intros H. destruct (Hin _ H) as [Hk|Hk]; [|discriminate Hk].
    pose proof (b64encode_chars bs) as Hc.
    rewrite List.Forall_forall in Hc.
    destruct (b64char_plain _ (Hc _ Hk)) as (_ & _ & Hsc & _).
    discriminate Hsc. }
  unfold make_ac_header_value.
  assert (keyarg_truthy (KBytes bs) = true) as -> by (by destruct bs).
  cbn [negb]. rewrite Hbody.
  destruct Hp as [-> | [-> | ->]]; cbn [default].
  - eexists. split; [reflexivity|]. by apply parse_written_plain.
  - eexists. split; [reflexivity|]. by apply parse_written_plain.
  - eexists. split; [reflexivity|]. by apply parse_written_mutual.
Qed.

Lemma header_roundtrip_witness :
  exists header,
    make_ac_header_value (lit "a@b.org") (KBytes ["A"%byte; "B"%byte; "C"%byte])
      (Some (lit "mutual")) = Ret header
    /\ parse_ac_headervalue PY3 header
       = Ret (mkACParseResult (Some ["A"%byte; "B"%byte; "C"%byte])
                (Some (lit "a@b.org")) (Some (lit "mutual")) (Some ∅) None).
Proof.
  apply (header_roundtrip PY3 (lit "a@b.org") ["A"%byte; "B"%byte; "C"%byte]
           (Some (lit "mutual"))).
  - discriminate.
  - apply (not_in_app_lit (lit "a@b.org") []); [reflexivity | intros []].
  - vm_compute. reflexivity.
  - right. right. reflexivity.
Defined.

(** The round trip does not hold for every address: an address with a
    [;] is cut in two by the parser, which then reports a malformed
    segment. *)
Lemma header_roundtrip_any_address_counterexample :
  ~ (forall ver a bs pref header,
       bs <> [] ->
       valid_preference pref ->
       make_ac_header_value a (KBytes bs) pref = Ret header ->
       exists r,
         parse_ac_headervalue ver header = Ret r
         /\ error r = None
         /\ addr r = Some a
         /\ keydata r = Some bs
         /\ prefer_encrypt r = Some (default (lit "nopreference") pref)).
Proof.
  intros H.
  destruct (H PY3 (lit "a;b") ["A"%byte] None
              (lit "addr=a;b; keydata=" ++ ch 10 :: lit "  QQ=="))
    as (r & Hr & He & _).
  - discriminate.
  - by left.
  - vm_compute. reflexivity.
  - vm_compute in Hr. injection Hr as <-. discriminate He.
Qed.

(** ** The configuration and the atomic change scope *)

Lemma commit_keeps_working_state c :
  _dict (fst (_commit c)) = _dict c /\ heap (fst (_commit c)) = heap c.
Proof. unfold _commit. by destruct (decide _). Qed.

Lemma peers_view_commit c : peers_view (fst (_commit c)) = peers_view c.
Proof.
  destruct (commit_keeps_working_state c) as [Hd Hh].
  unfold peers_view. by rewrite Hd, Hh.
Qed.

Lemma atomic_change_returns {A} (body : M A) c c1 a :
  body c = (c1, Ret a) ->
  atomic_change body c = (fst (_commit c1), Ret a).
Proof. intros H. unfold atomic_change. rewrite H. by destruct (_commit c1). Qed.

Lemma atomic_change_raises {A} (body : M A) c c1 e :
  body c = (c1, Raise e) ->
  atomic_change body c
  = (mkConfig (_dict_old c1) (_dict_old c1) (heap c1) (file c1), Raise e).
Proof. intros H. unfold atomic_change. by rewrite H. Qed.

Lemma config_peers_existing c l :
  _dict c !! lit "peers" = Some (CRef l) -> config_peers c = (c, Ret l).
Proof. intros H. unfold config_peers. by rewrite H. Qed.

Lemma stored_some_peers c a k v :
  stored c a !! k = Some v -> exists l, _dict c !! lit "peers" = Some (CRef l).
Proof.
  unfold stored, peers_view.
  destruct (_dict c !! lit "peers") as [[s|l]|]; try done.
  by exists l.
Qed.

Lemma stored_truthy_peers c a :
  dict_truthy (stored c a) = true ->
  exists l, _dict c !! lit "peers" = Some (CRef l).
Proof.
  unfold dict_truthy, stored, peers_view. intros H.
  apply negb_true_iff, bool_decide_eq_false in H.
  destruct (_dict c !! lit "peers") as [[s|l]|]; try done.
  by exists l.
Qed.

Lemma peers_get_stored c l a :
  _dict c !! lit "peers" = Some (CRef l) ->
  peers_get l a c = (c, Ret (stored c a)).
Proof. intros H. unfold peers_get, stored, peers_view. by rewrite H. Qed.

(** [self.config.peers[a] = d] inside an atomic change scope, when the
    [peers] dictionary exists: the record of [a] is replaced, the others
    stay. *)
Lemma atomic_set_peer c l a d :
  _dict c !! lit "peers" = Some (CRef l) ->
  exists c',
    atomic_change (set_peer a d) c = (c', Ret tt)
    /\ peers_view c' = <[a := d]> (peers_view c)
    /\ _dict c' = _dict c.
Proof.
  intros H.
  assert (Hb : set_peer a d c
               = (mkConfig (_dict c) (_dict_old c)
                    (<[l := <[a := d]> (default ∅ (heap c !! l))]> (heap c))
                    (file c), Ret tt)).
  { unfold set_peer, bindM. by rewrite (config_peers_existing c l H). }
  eexists. split; [by apply atomic_change_returns|].
  split; [|by destruct (commit_keeps_working_state
                          (mkConfig (_dict c) (_dict_old c)
                             (<[l := <[a := d]> (default ∅ (heap c !! l))]>
                                (heap c)) (file c)))].
  rewrite peers_view_commit. unfold peers_view. cbn [_dict heap].
  rewrite H. by rewrite lookup_insert_eq.
Qed.

(** ** Processing an incoming message *)

Section ProcessIncoming.
Variable E : Externals.
Variable ver : pyversion.
Variable msg : Message.
Variable c : Config.
Variable l : nat.

Let From := sender E msg.
Let d := mime_parse_one_ac_header_from_msg E msg.
Let new_date := jval_of (date_header msg).

Hypothesis Hpeers : _dict c !! lit "peers" = Some (CRef l).

(** The entry of the function, up to the first test. *)
Lemma process_incoming_entry :
  process_incoming E ver msg c
  = (if dict_truthy d then
       to <~ liftM (getitem d (lit "to")) ;;
       if bool_decide (to = JStr From) then
         ge <~ liftM (parsed_ge ver (parsedate E new_date)
                        (parsedate E (default new_date
                                        (stored c From !! lit "*date")))) ;;
         if (ge : bool) then
           let d1 := <[lit "*date" := new_date]> d in
           key <~ liftM (getitem d1 (lit "key")) ;;
           keydata <~ liftM (b64decode_val key) ;;
           keyhandle <~ liftM (import_keydata E keydata) ;;
           let d2 := <[lit "*keyhandle" := JStr keyhandle]> d1 in
           atomic_change (set_peer From d2) ;;;
           pi <~ liftM (make_PeerInfo d2) ;;
           retM (Some pi)
         else retM None
       else retM None
     else if dict_truthy (stored c From) then
       atomic_change (set_peer From ∅) ;;;
       retM None
     else retM None)%py c.
Proof.
  unfold process_incoming. unfold bindM at 1.
  rewrite (config_peers_existing c l Hpeers).
  unfold bindM at 1. fold (sender E msg). fold From.
  rewrite (peers_get_stored c l From Hpeers). reflexivity.
Qed.

(** A header for the sender whose date compares as older: nothing
    happens. *)
Lemma process_incoming_stale :
  dict_truthy d = true ->
  d !! lit "to" = Some (JStr From) ->
  parsed_ge ver (parsedate E new_date)
    (parsedate E (default new_date (stored c From !! lit "*date")))
  = Ret false ->
  process_incoming E ver msg c = (c, Ret None).
Proof.
  intros Ht Hto Hge. rewrite process_incoming_entry, Ht.
  unfold bindM, liftM, getitem. rewrite Hto.
  rewrite bool_decide_eq_true_2 by done. by rewrite Hge.
Qed.

(** A header that names another address: nothing happens. *)
Lemma process_incoming_other_address v :
  dict_truthy d = true ->
  d !! lit "to" = Some v ->
  v <> JStr From ->
  process_incoming E ver msg c = (c, Ret None).
Proof.
  intros Ht Hto Hne. rewrite process_incoming_entry, Ht.
  unfold bindM, liftM, getitem. rewrite Hto.
  by rewrite bool_decide_eq_false_2 by done.
Qed.

(** A non-empty header result without [to] entry: [d["to"]] raises. *)
Lemma process_incoming_no_to :
  dict_truthy d = true ->
  d !! lit "to" = None ->
  process_incoming E ver msg c = (c, Raise (KeyError (lit "to"))).
Proof.
  intros Ht Hto. rewrite process_incoming_entry, Ht.
  unfold bindM, liftM, getitem. by rewrite Hto.
Qed.

(** An empty header result while the sender has a stored record: the
    record is replaced by the empty one. *)
Lemma process_incoming_forgets :
  d = ∅ ->
  dict_truthy (stored c From) = true ->
  exists c',
    process_incoming E ver msg c = (c', Ret None)
    /\ peers_view c' = <[From := ∅]> (peers_view c)
    /\ _dict c' = _dict c.
Proof.
  intros Hd Hold. rewrite process_incoming_entry, Hd, Hold.
  change (dict_truthy (∅ : gmap str jval)) with false. cbn iota.
  destruct (atomic_set_peer c l From ∅ Hpeers) as (c' & Hc & Hv).
  exists c'. split; [|done]. unfold bindM. by rewrite Hc.
Qed.

(** A header for the sender whose date compares as equal or newer: the
    record is replaced by the header with its two bookkeeping entries. *)
Lemma process_incoming_accepts k kd kh :
  dict_truthy d = true ->
  d !! lit "to" = Some (JStr From) ->
  parsed_ge ver (parsedate E new_date)
    (parsedate E (default new_date (stored c From !! lit "*date")))
  = Ret true ->
  d !! lit "key" = Some k ->
  b64decode_val k = Ret kd ->
  import_keydata E kd = Ret kh ->
  exists c' pi,
    process_incoming E ver msg c = (c', Ret (Some pi))
    /\ peers_view c' = <[From := accepted_record d new_date kh]> (peers_view c)
    /\ keyhandle pi = JStr kh
    /\ date pi = new_date.
Proof.
  intros Ht Hto Hge Hk Hkd Hkh. rewrite process_incoming_entry, Ht.
  unfold bindM at 1. unfold liftM at 1. unfold getitem at 1. rewrite Hto.
  rewrite bool_decide_eq_true_2 by done.
  unfold bindM at 1. unfold liftM at 1. rewrite Hge. cbv zeta.
  unfold bindM at 1. unfold liftM at 1. unfold getitem at 1.
  rewrite lookup_insert_ne by discriminate. rewrite Hk.
  unfold bindM at 1. unfold liftM at 1. rewrite Hkd.
  unfold bindM at 1. unfold liftM at 1. rewrite Hkh.
  fold (accepted_record d new_date kh).
  destruct (atomic_set_peer c l From (accepted_record d new_date kh) Hpeers)
    as (c' & Hc & Hv & _).
  unfold bindM at 1. rewrite Hc.
  unfold bindM, liftM, make_PeerInfo, accepted_record.
  rewrite lookup_insert_eq.
  rewrite lookup_insert_ne by discriminate. rewrite lookup_insert_eq.
  eexists _, _. split; [reflexivity|]. done.
Qed.
End ProcessIncoming.

Lemma stored_insert_eq c c' a r :
  peers_view c' = <[a := r]> (peers_view c) -> stored c' a = r.
Proof. intros H. unfold stored. by rewrite H, lookup_insert_eq. Qed.

Lemma stored_insert_ne c c' a b r :
  peers_view c' = <[a := r]> (peers_view c) -> b <> a ->
  stored c' b = stored c b.
Proof. intros H Hne. unfold stored. by rewrite H, lookup_insert_ne. Qed.

(** C2: the sender has a stored record dated [A] and the message carries a
    header for the sender.  If the date of the message compares as older
    than [A], processing returns without result and the configuration is
    the same as before.  If it compares as equal or newer, the record is
    replaced by the header of the message, dated with the date of the
    message; other peers keep their records. *)
Theorem process_incoming_date_guard E ver msg c A tnew told :
  let From := sender E msg in
  let d := mime_parse_one_ac_header_from_msg E msg in
  let new_date := jval_of (date_header msg) in
  dict_truthy d = true ->
  d !! lit "to" = Some (JStr From) ->
  stored c From !! lit "*date" = Some A ->
  parsedate E new_date = Some tnew ->
  parsedate E A = Some told ->
  (tuple_ge tnew told = false ->
   process_incoming E ver msg c = (c, Ret None))
  /\ (tuple_ge tnew told = true ->
      forall k kd kh,
        d !! lit "key" = Some k ->
        b64decode_val k = Ret kd ->
        import_keydata E kd = Ret kh ->
        exists c' pi,
          process_incoming E ver msg c = (c', Ret (Some pi))
          /\ stored c' From = accepted_record d new_date kh
          /\ stored c' From !! lit "*date" = Some new_date
          /\ forall a, a <> From -> stored c' a = stored c a).
Proof.
  intros From d new_date Ht Hto HA Hnew Hold.
  destruct (stored_some_peers _ _ _ _ HA) as (l & Hl).
  assert (Hge : parsed_ge ver (parsedate E new_date)
                  (parsedate E (default new_date
                                  (stored c From !! lit "*date")))
                = Ret (tuple_ge tnew told)).
  { rewrite HA. change (default new_date (Some A)) with A.
    by rewrite Hnew, Hold. }
  split; intros Hcmp; rewrite Hcmp in Hge.
  - by apply (process_incoming_stale E ver msg c l Hl).
  - intros k kd kh Hk Hkd Hkh.
    destruct (process_incoming_accepts E ver msg c l Hl k kd kh
                Ht Hto Hge Hk Hkd Hkh) as (c' & pi & Hp & Hv & _).
    exists c', pi. subst From d new_date. split; [done|].
    split; [by apply (stored_insert_eq c)|].
    split.
    + rewrite (stored_insert_eq c c' _ _ Hv). unfold accepted_record.
      rewrite lookup_insert_ne by discriminate. apply lookup_insert_eq.
    + intros a Ha. by apply (stored_insert_ne c c' (sender E msg) a _ Hv).
Qed.

(** The scenario of the specification: a message dated 2020-02-02 was
    processed, then one dated 2020-01-01 arrives from the same sender. *)
Lemma process_incoming_date_guard_witness :
  let older :=
    example_message "2020-01-01" [lit "addr=a@b.org; keydata=QUJE"] in
  stored example_config (lit "a@b.org") !! lit "*date"
  = Some (JStr (lit "2020-02-02"))
  /\ process_incoming example_externals PY3 older example_config
     = (example_config, Ret None).
Proof.
  intros older.
  assert (HA : stored example_config (sender example_externals older)
               !! lit "*date" = Some (JStr (lit "2020-02-02")))
    by (vm_compute; reflexivity).
  split; [exact HA|].
  refine (proj1 (process_incoming_date_guard example_externals PY3 older
                   example_config (JStr (lit "2020-02-02"))
                   (map (fun c => Z.of_N (N_of_ascii c)) (lit "2020-01-01"))
                   (map (fun c => Z.of_N (N_of_ascii c)) (lit "2020-02-02"))
                   _ _ HA _ _) _).
  - vm_compute. reflexivity.
  - vm_compute. reflexivity.
  - reflexivity.
  - reflexivity.
  - vm_compute. reflexivity.
Defined.

Lemma get_peerinfo_empty c l a :
  _dict c !! lit "peers" = Some (CRef l) ->
  peers_view c !! a = Some ∅ ->
  get_peerinfo a c = (c, Ret None).
Proof.
  intros Hl Hv. unfold get_peerinfo, bindM.
  rewrite (config_peers_existing c l Hl).
  unfold peers_view in Hv. rewrite Hl in Hv. by rewrite Hv.
Qed.

(** C8: the sender has a stored, non-empty record and the message has no
    Autocrypt header, so that the header result is the empty dictionary.
    Processing returns without result, the record of the sender is the
    empty one, [get_peerinfo] reports nothing for the sender, and the
    other peers keep their records. *)
Theorem process_incoming_without_header_forgets E ver msg c :
  no_header_is_empty E ->
  content_type msg <> lit "multipart/report" ->
  autocrypt_headers msg = [] ->
  dict_truthy (stored c (sender E msg)) = true ->
  exists c',
    process_incoming E ver msg c = (c', Ret None)
    /\ stored c' (sender E msg) = ∅
    /\ get_peerinfo (sender E msg) c' = (c', Ret None)
    /\ forall a, a <> sender E msg -> stored c' a = stored c a.
Proof.
  intros HE Hct Hno Hold.
  destruct (stored_truthy_peers _ _ Hold) as (l & Hl).
  destruct (process_incoming_forgets E ver msg c l Hl (HE msg Hct Hno) Hold)
    as (c' & Hp & Hv & Hd).
  exists c'. split; [done|]. split; [by apply (stored_insert_eq c)|].
  split.
  - apply (get_peerinfo_empty c' l); [by rewrite Hd|].
    by rewrite Hv, lookup_insert_eq.
  - intros a Ha. by apply (stored_insert_ne c c' (sender E msg) a _ Hv).
Qed.

Lemma example_externals_no_header : no_header_is_empty example_externals.
Proof.
  intros m Hct Hno. cbn. unfold sample_header. by rewrite Hno.
Qed.

Lemma process_incoming_without_header_forgets_witness :
  let plain := example_message "2020-03-03" [] in
  dict_truthy (stored example_config (lit "a@b.org")) = true
  /\ exists c',
       process_incoming example_externals PY3 plain example_config
       = (c', Ret None)
       /\ stored c' (lit "a@b.org") = ∅
       /\ get_peerinfo (lit "a@b.org") c' = (c', Ret None).
Proof.
  intros plain.
  assert (Hold : dict_truthy (stored example_config
                                (sender example_externals plain)) = true)
    by (vm_compute; reflexivity).
  split; [exact Hold|].
  destruct (process_incoming_without_header_forgets example_externals PY3
              plain example_config example_externals_no_header)
    as (c' & Hp & Hs & Hg & _).
  - vm_compute. discriminate.
  - reflexivity.
  - exact Hold.
  - exists c'. split; [exact Hp|]. split; [exact Hs | exact Hg].
Defined.

(** The parser of [muacrypt/mime.py] itself raises on a header whose
    segment has an empty name; selection passes the exception on. *)
Lemma selection_raises_on_empty_name ver FromList :
  parse_one_ac_header_from_msg ver (example_message "2020-03-03" [lit "=bar"])
    FromList = Raise IndexError.
Proof. destruct ver; vm_compute; reflexivity. Qed.

(** ** The atomic change scope and shared dictionary objects *)

(** When the scope fails without having changed a dictionary object, the
    working dictionary is the last committed one again. *)
Lemma atomic_change_restores_flat {A} (body : M A) c c1 e :
  body c = (c1, Raise e) ->
  _dict_old c1 = _dict_old c ->
  heap c1 = heap c ->
  let c2 := fst (atomic_change body c) in
  snd (atomic_change body c) = Raise e
  /\ deep (heap c2) (_dict c2) = deep (heap c) (_dict_old c)
  /\ file c2 = file c1.
Proof.
  intros Hb Ho Hh. rewrite (atomic_change_raises body c c1 e Hb).
  cbn. by rewrite Ho, Hh.
Qed.

Lemma set_prefer_encrypt_rejects c v :
  v ∉ [lit "yes"; lit "no"; lit "notset"] ->
  set_prefer_encrypt v c
  = (mkConfig (_dict_old c) (_dict_old c) (heap c) (file c), Raise ValueError).
Proof.
  intros Hv. unfold set_prefer_encrypt.
  apply atomic_change_raises. unfold persistent_set.
  by rewrite bool_decide_eq_false_2.
Qed.

(** C9, where the code departs from it.  [example_config] is a committed
    state: the file holds exactly the working dictionary.  A scope that
    stores a record for [x@y.org] and then fails re-raises the exception,
    but the record is still there afterwards, although the file of the
    last commit does not have it: the copy kept at a commit shares the
    [peers] dictionary object with the working dictionary.  For the same
    reason a scope that only stores that record and succeeds writes
    nothing: the two dictionaries compare equal. *)
Theorem atomic_change_keeps_nested_mutation :
  let rec := example_record "x@y.org" in
  let failed := atomic_change failing_scope example_config in
  let stored_ok := atomic_change (set_peer (lit "x@y.org") rec) example_config in
  file example_config
  = Some (deep (heap example_config) (_dict example_config))
  /\ file_peers example_config !! lit "x@y.org" = None
  /\ snd failed = Raise ValueError
  /\ peers_view (fst failed) !! lit "x@y.org" = Some rec
  /\ file_peers (fst failed) !! lit "x@y.org" = None
  /\ snd stored_ok = Ret tt
  /\ peers_view (fst stored_ok) !! lit "x@y.org" = Some rec
  /\ file (fst stored_ok) = file example_config
  /\ file_peers (fst stored_ok) !! lit "x@y.org" = None.
Proof.
  cbv zeta. repeat split; vm_compute; reflexivity.
Qed.

(** ** A date comparison that does not succeed *)

Lemma tuple_ge_refl x : tuple_ge x x = true.
Proof.
  induction x as [|a x IH]; [done|]. cbn [tuple_ge]. by rewrite Z.eqb_refl.
Qed.

(** When the date comparison raises, so does [process_incoming], before
    anything is stored. *)
Lemma process_incoming_comparison_raises E ver msg c l e :
  let From := sender E msg in
  let d := mime_parse_one_ac_header_from_msg E msg in
  let new_date := jval_of (date_header msg) in
  _dict c !! lit "peers" = Some (CRef l) ->
  dict_truthy d = true ->
  d !! lit "to" = Some (JStr From) ->
  parsed_ge ver (parsedate E new_date)
    (parsedate E (default new_date (stored c From !! lit "*date")))
  = Raise e ->
  process_incoming E ver msg c = (c, Raise e).
Proof.
  intros From d new_date Hl Ht Hto Hge.
  rewrite (process_incoming_entry E ver msg c l Hl).
  fold From d new_date. rewrite Ht.
  unfold bindM, liftM, getitem. rewrite Hto.
  rewrite bool_decide_eq_true_2 by done. by rewrite Hge.
Qed.

(** The comparison of two [parsedate] results raises on Python 3 only,
    [TypeError], and exactly when one of the two dates was not readable. *)
Lemma parsed_ge_raises ver a b e :
  parsed_ge ver a b = Raise e
  <-> ver = PY3 /\ e = TypeError /\ (a = None \/ b = None).
Proof.
  split.
  - destruct a as [x|], b as [y|], ver; cbn; try discriminate;
      intros [= <-]; (split; [done|]); (split; [done|]); auto.
  - intros (-> & -> & [-> | ->]); [done|]. by destruct a.
Qed.

(** C3, the date half, on a header for the sender and a stored date.  A
    comparison that yields false (the stale message) is ignored: nothing
    is raised and the configuration stays as it is.  A comparison that
    raises is not: [process_incoming] raises the same exception.  That
    happens on Python 3, with [TypeError], exactly when [parsedate] cannot
    read the date of the message or the stored one. *)
Theorem process_incoming_date_comparison E ver msg c A :
  let From := sender E msg in
  let d := mime_parse_one_ac_header_from_msg E msg in
  let new_date := jval_of (date_header msg) in
  let comparison :=
    parsed_ge ver (parsedate E new_date) (parsedate E A) in
  dict_truthy d = true ->
  d !! lit "to" = Some (JStr From) ->
  stored c From !! lit "*date" = Some A ->
  (comparison = Ret false ->
   process_incoming E ver msg c = (c, Ret None))
  /\ (forall e, comparison = Raise e ->
        process_incoming E ver msg c = (c, Raise e))
  /\ (forall e, comparison = Raise e
        <-> ver = PY3 /\ e = TypeError
            /\ (parsedate E new_date = None \/ parsedate E A = None)).
Proof.
  intros From d new_date comparison Ht Hto HA.
  destruct (stored_some_peers _ _ _ _ HA) as (l & Hl).
  split; [|split].
  - intros Hge.
    apply (process_incoming_stale E ver msg c l Hl Ht Hto).
    fold From new_date. by rewrite HA.
  - intros e Hge.
    apply (process_incoming_comparison_raises E ver msg c l e Hl Ht Hto).
    fold From new_date. by rewrite HA.
  - intros e. apply parsed_ge_raises.
Qed.

(** On Python 3, after a message dated 2020-02-02 was accepted, a message
    of the same sender with a header for the sender and no [Date] header
    makes [process_incoming] raise [TypeError]. *)
Lemma process_incoming_date_comparison_witness :
  let undated :=
    mkMessage (lit "text/plain") [lit "addr=a@b.org; keydata=QUJE"]
      (Some (lit "a@b.org")) None in
  stored example_config (lit "a@b.org") !! lit "*date"
  = Some (JStr (lit "2020-02-02"))
  /\ process_incoming example_externals PY3 undated example_config
     = (example_config, Raise TypeError).
Proof.
  intros undated.
  assert (HA : stored example_config (sender example_externals undated)
               !! lit "*date" = Some (JStr (lit "2020-02-02")))
    by (vm_compute; reflexivity).
  split; [exact HA|].
  refine (proj1 (proj2 (process_incoming_date_comparison example_externals
                          PY3 undated example_config
                          (JStr (lit "2020-02-02")) _ _ HA))
            TypeError _).
  - vm_compute. reflexivity.
  - vm_compute. reflexivity.
  - reflexivity.
Defined.

(* ===================================================================== *)
(** * Part III: further properties of the code                            *)
(* ===================================================================== *)

(** ** The parser: what it returns and when it raises *)

Lemma parse_parts_raise parts : forall rd ea e,
  parse_parts parts rd ea = Raise e ->
  e = IndexError
  /\ exists p, In p parts /\ setting_name p = Some [].
Proof.
  induction parts as [|x parts IH]; intros rd ea e H; [discriminate|].
  destruct (parse_parts_step x parts rd ea)
    as [(msg & _ & Hm) | [[Hn Hr] | (n & rd' & ea' & _ & _ & Heq)]].
  - rewrite Hm in H. discriminate.
  - rewrite Hr in H. injection H as <-. split; [done|].
    exists x. split; [by left | done].
  - rewrite Heq in H. destruct (IH _ _ _ H) as (-> & p & Hp & Hs).
    split; [done|]. exists p. split; [by right | done].
Qed.

(** X1: the parser raises nothing but [IndexError], and only for a value
    that has a segment with an empty name; a value without such a segment
    always gets a result object. *)
Theorem parse_ac_headervalue_raises_only_on_empty_name ver value :
  (forall e, parse_ac_headervalue ver value = Raise e ->
     e = IndexError
     /\ exists p, In p (header_parts value) /\ setting_name p = Some [])
  /\ ((forall p, In p (header_parts value) -> setting_name p <> Some []) ->
      exists r, parse_ac_headervalue ver value = Ret r).
Proof.
  assert (Hraise : forall e, parse_ac_headervalue ver value = Raise e ->
            e = IndexError
            /\ exists p, In p (header_parts value)
                         /\ setting_name p = Some []).
  { intros e. unfold parse_ac_headervalue.
    destruct (negb _); [discriminate|]. apply parse_parts_raise. }
  split; [exact Hraise|].
  intros Hne. destruct (parse_ac_headervalue ver value) as [r|e] eqn:Hp.
  - by exists r.
  - destruct (Hraise e eq_refl) as (_ & p & Hin & Hs).
    exfalso. by apply (Hne p).
Qed.

Lemma result_dict_ok_initial :
  result_dict_ok {[ lit "prefer_encrypt" := PStr (lit "nopreference") ]}.
Proof.
  split; [|split].
  - exists (lit "nopreference"). split; [apply lookup_singleton_eq | by left].
  - left. by apply lookup_singleton_ne.
  - left. by apply lookup_singleton_ne.
Qed.

Lemma parse_finish_shape rd ea :
  result_dict_ok rd ->
  is_error_result (parse_finish rd ea) \/ is_full_result (parse_finish rd ea).
Proof.
  intros ((p & Hp & Hv) & Hk & Ha). unfold parse_finish.
  destruct Hk as [-> | (b & ->)].
  { left. eexists. split; [|reflexivity]. discriminate. }
  destruct Ha as [-> | (a & ->)].
  { left. eexists. split; [|reflexivity]. discriminate. }
  right. rewrite Hp. by exists b, a, p, ea.
Qed.

Lemma parse_parts_shape parts : forall rd ea r,
  result_dict_ok rd ->
  parse_parts parts rd ea = Ret r ->
  is_error_result r \/ is_full_result r.
Proof.
  induction parts as [|x parts IH]; intros rd ea r Hok.
  { cbn [parse_parts]. intros [= <-]. by apply parse_finish_shape. }
  destruct Hok as ((p & Hp & Hv) & Hk & Ha).
  cbn [parse_parts].
  destruct (split_once "=" x) as [|n [|v [|w t]]];
    try (intros [= <-]; left; eexists; split; [|reflexivity]; discriminate).
  destruct (str_eqb (strip n) (lit "keydata")) eqn:Ek.
  { destruct (decode_keydata _) as [b|].
    - apply IH. split; [|split].
      + exists p. by rewrite lookup_insert_ne by discriminate.
      + right. exists b. apply lookup_insert_eq.
      + by rewrite lookup_insert_ne by discriminate.
    - intros [= <-]. left. eexists. split; [|reflexivity]. discriminate. }
  destruct (str_eqb (strip n) (lit "prefer-encrypt")) eqn:Ep.
  { destruct (str_eqb (strip v) (lit "nopreference")
              || str_eqb (strip v) (lit "mutual")) eqn:Ev.
    - apply IH. split; [|split].
      + exists (strip v). split; [apply lookup_insert_eq|].
        apply orb_true_iff in Ev as [Ev|Ev]; apply str_eqb_eq in Ev; auto.
      + by rewrite lookup_insert_ne by discriminate.
      + by rewrite lookup_insert_ne by discriminate.
    - intros [= <-]. left. eexists. split; [|reflexivity]. discriminate. }
  destruct (str_eqb (strip n) (lit "addr")) eqn:Ea.
  { apply IH. split; [|split].
    - exists p. by rewrite lookup_insert_ne by discriminate.
    - by rewrite lookup_insert_ne by discriminate.
    - right. exists (strip v). apply lookup_insert_eq. }
  destruct (strip n) as [|c s]; [discriminate|].
  destruct (negb (Ascii.eqb c "_")).
  - intros [= <-]. left. eexists. split; [|reflexivity]. discriminate.
  - apply IH. by split; [exists p|].
Qed.

(** X2: a result of the parser has one of two shapes and never a mix: an
    error result, with a non-empty reason and no other attribute set, or a
    result without error in which [keydata], [addr], [prefer_encrypt] and
    [extra_attr] are all set and the preference is [nopreference] or
    [mutual]. *)
Theorem parse_ac_headervalue_result_shape ver value r :
  parse_ac_headervalue ver value = Ret r ->
  (is_error_result r /\ keydata r = None /\ addr r = None
   /\ prefer_encrypt r = None /\ extra_attr r = None)
  \/ (is_full_result r /\ error r = None).
Proof.
  intros H.
  assert (Hs : is_error_result r \/ is_full_result r).
  { unfold parse_ac_headervalue in H. destruct (negb _).
    - injection H as <-. left. eexists. split; [|reflexivity]. discriminate.
    - by apply (parse_parts_shape _ _ _ _ result_dict_ok_initial H). }
  destruct Hs as [(msg & Hm & ->) | (b & a & p & ea & -> & Hp)].
  - left. split; [by exists msg | done].
  - right. split; [by exists b, a, p, ea | done].
Qed.

Lemma parse_ac_headervalue_result_shape_witness :
  let r := mkACParseResult (Some ["A"%byte; "B"%byte; "C"%byte])
             (Some (lit "a@b.org")) (Some (lit "nopreference")) (Some ∅) None in
  (is_error_result r /\ keydata r = None /\ addr r = None
   /\ prefer_encrypt r = None /\ extra_attr r = None)
  \/ (is_full_result r /\ error r = None).
Proof.
  intros r.
  apply (parse_ac_headervalue_result_shape PY3
           (lit "addr=a@b.org; keydata=QUJD") r).
  vm_compute. reflexivity.
Defined.

(** Like [parse_parts_all_ok], with the extra attributes: each entry of
    [extra_attr] is the one written by the last segment of that name. *)
Lemma parse_parts_all_ok_extra parts : forall rd ea,
  Forall (fun x => setting_ok x = true) parts ->
  exists rd' ea',
    parse_parts parts rd ea = Ret (parse_finish rd' ea')
    /\ rd' !! lit "addr"
       = match last_setting (lit "addr") parts with
         | Some v => Some (PStr v)
         | None => rd !! lit "addr"
         end
    /\ rd' !! lit "keydata"
       = match last_setting (lit "keydata") parts with
         | Some v => PBytes <$> keydata_of v
         | None => rd !! lit "keydata"
         end
    /\ rd' !! lit "prefer_encrypt"
       = match last_setting (lit "prefer-encrypt") parts with
         | Some v => Some (PStr v)
         | None => rd !! lit "prefer_encrypt"
         end
    /\ forall n,
         ea' !! n
         = match (if starts_with_underscore n then last_setting n parts
                  else None) with
           | Some v => Some v
           | None => ea !! n
           end.
Proof.
  induction parts as [|x parts IH]; intros rd ea Hall.
  { exists rd, ea. repeat split; try done. intros n. by destruct (starts_with_underscore n). }
  inversion Hall as [|? ? Hx Hrest]; subst.
  unfold setting_ok in Hx. cbn [parse_parts last_setting].
  unfold setting in *.
  destruct (split_once "=" x) as [|n [|v [|w t]]]; try discriminate Hx.
  destruct (str_eqb (strip n) (lit "keydata")) eqn:Hk.
  { apply str_eqb_eq in Hk. unfold keydata_of.
    destruct (decode_keydata (concat (split_ws (strip v)))) as [b|] eqn:Hd;
      [|discriminate].
    destruct (IH (<[lit "keydata" := PBytes b]> rd) ea Hrest)
      as (rd' & ea' & -> & Ha & Hkd & Hp & He).
    exists rd', ea'. split; [done|]. rewrite Ha, Hkd, Hp, ?Hk.
    split; [last_wins "addr" parts
          |split; [last_wins "keydata" parts
                  |split; [last_wins "prefer-encrypt" parts|]]].
    - unfold keydata_of. by rewrite Hd.
    - intros m. rewrite He. destruct (starts_with_underscore m) eqn:Em; [|done].
      destruct (last_setting m parts); [done|].
      destruct (str_eqb (lit "keydata") m) eqn:E; [|done].
      apply str_eqb_eq in E. subst m. discriminate Em. }
  destruct (str_eqb (strip n) (lit "prefer-encrypt")) eqn:Hpe.
  { apply str_eqb_eq in Hpe. rewrite Hx.
    destruct (IH (<[lit "prefer_encrypt" := PStr (strip v)]> rd) ea Hrest)
      as (rd' & ea' & -> & Ha & Hkd & Hp & He).
    exists rd', ea'. split; [done|]. rewrite Ha, Hkd, Hp, ?Hpe.
    split; [last_wins "addr" parts
          |split; [last_wins "keydata" parts
                  |split; [last_wins "prefer-encrypt" parts|]]].
    intros m. rewrite He. destruct (starts_with_underscore m) eqn:Em; [|done].
    destruct (last_setting m parts); [done|].
    destruct (str_eqb (lit "prefer-encrypt") m) eqn:E; [|done].
    apply str_eqb_eq in E. subst m. discriminate Em. }
  destruct (str_eqb (strip n) (lit "addr")) eqn:Had.
  { apply str_eqb_eq in Had.
    destruct (IH (<[lit "addr" := PStr (strip v)]> rd) ea Hrest)
      as (rd' & ea' & -> & Ha & Hkd & Hp & He).
    exists rd', ea'. split; [done|]. rewrite Ha, Hkd, Hp, ?Had.
    split; [last_wins "addr" parts
          |split; [last_wins "keydata" parts
                  |split; [last_wins "prefer-encrypt" parts|]]].
    intros m. rewrite He. destruct (starts_with_underscore m) eqn:Em; [|done].
    destruct (last_setting m parts); [done|].
    destruct (str_eqb (lit "addr") m) eqn:E; [|done].
    apply str_eqb_eq in E. subst m. discriminate Em. }
  destruct (strip n) as [|c s] eqn:Hn; [discriminate|].
  rewrite Hx. cbn [negb].
  match goal with
  | |- context [parse_parts parts rd ?e] =>
      destruct (IH rd e Hrest) as (rd' & ea' & -> & Ha & Hkd & Hp & He)
  end.
  exists rd', ea'. split; [done|]. rewrite Ha, Hkd, Hp.
  assert (Hc : c = "_"%char) by (by apply Ascii.eqb_eq).
  subst c.
  split; [last_wins "addr" parts
        |split; [last_wins "keydata" parts
                |split; [last_wins "prefer-encrypt" parts|]]].
  intros m. rewrite He. destruct (starts_with_underscore m) eqn:Em.
  - destruct (last_setting m parts); [done|].
    destruct (str_eqb ("_"%char :: s) m) eqn:E.
    + apply str_eqb_eq in E. subst m. apply lookup_insert_eq.
    + apply str_eqb_neq in E. by rewrite lookup_insert_ne.
  - rewrite lookup_insert_ne; [done|]. intros <-. discriminate Em.
Qed.

Lemma truthy_nonempty ver (parts : list str) :
  parts <> [] -> filter_result_truthy ver parts = true.
Proof. by destruct ver, parts. Qed.

(** X3: when every segment is acceptable on its own but no segment is
    named [keydata], the result is the error "critical attr 'keydata'
    missing"; when [keydata] is there but no segment is named [addr], it is
    "critical attr 'addr' missing".  [keydata] is looked for first. *)
Theorem parse_ac_headervalue_missing_critical ver value :
  header_parts value <> [] ->
  Forall (fun x => setting_ok x = true) (header_parts value) ->
  (last_setting (lit "keydata") (header_parts value) = None ->
   parse_ac_headervalue ver value
   = Ret (ac_error (lit "critical attr 'keydata' missing")))
  /\ (last_setting (lit "keydata") (header_parts value) <> None ->
      last_setting (lit "addr") (header_parts value) = None ->
      parse_ac_headervalue ver value
      = Ret (ac_error (lit "critical attr 'addr' missing"))).
Proof.
  intros Hne Hall. unfold parse_ac_headervalue.
  rewrite (truthy_nonempty ver _ Hne). cbn [negb].
  destruct (parse_parts_all_ok_extra (header_parts value)
              {[ lit "prefer_encrypt" := PStr (lit "nopreference") ]} ∅ Hall)
    as (rd' & ea' & -> & Ha & Hk & _).
  split.
  - intros Hnk. rewrite Hnk in Hk.
    rewrite lookup_singleton_ne in Hk by discriminate.
    unfold parse_finish. by rewrite Hk.
  - intros Hsk Hna.
    destruct (last_setting (lit "keydata") (header_parts value)) as [k|] eqn:Ek;
      [|done].
    destruct (last_keydata_decodes _ _ Hall Ek) as (b & Hb).
    rewrite Hb in Hk. rewrite Hna in Ha.
    rewrite lookup_singleton_ne in Ha by discriminate.
    unfold parse_finish. by rewrite Hk, Ha.
Qed.

Lemma parse_ac_headervalue_missing_critical_witness :
  parse_ac_headervalue PY3 (lit "addr=a@b.org; _note=x")
  = Ret (ac_error (lit "critical attr 'keydata' missing"))
  /\ parse_ac_headervalue PY3 (lit "keydata=QUJD; prefer-encrypt=mutual")
     = Ret (ac_error (lit "critical attr 'addr' missing")).
Proof.
  split.
  - refine (proj1 (parse_ac_headervalue_missing_critical PY3
                     (lit "addr=a@b.org; _note=x") _ _) _).
    + vm_compute. discriminate.
    + apply forallb_setting_ok. vm_compute. reflexivity.
    + vm_compute. reflexivity.
  - refine (proj2 (parse_ac_headervalue_missing_critical PY3
                     (lit "keydata=QUJD; prefer-encrypt=mutual") _ _) _ _).
    + vm_compute. discriminate.
    + apply forallb_setting_ok. vm_compute. reflexivity.
    + vm_compute. discriminate.
    + vm_compute. reflexivity.
Defined.

(** X4: in a result without error, [extra_attr] holds exactly the
    attributes whose name starts with an underscore, each with the value of
    its last segment; no other name gets into it. *)
Theorem parse_ac_headervalue_extra_attr ver value a k :
  Forall (fun x => setting_ok x = true) (header_parts value) ->
  last_setting (lit "addr") (header_parts value) = Some a ->
  last_setting (lit "keydata") (header_parts value) = Some k ->
  exists r ea,
    parse_ac_headervalue ver value = Ret r
    /\ error r = None
    /\ extra_attr r = Some ea
    /\ forall n,
         ea !! n = if starts_with_underscore n
                   then last_setting n (header_parts value)
                   else None.
Proof.
  intros Hall Ha Hk. unfold parse_ac_headervalue.
  destruct (last_keydata_decodes _ _ Hall Hk) as (b & Hb).
  destruct (last_setting_in _ _ _ Ha) as (x & Hin & _).
  rewrite (header_parts_nonempty_truthy ver value x Hin). cbn [negb].
  destruct (parse_parts_all_ok_extra (header_parts value)
              {[ lit "prefer_encrypt" := PStr (lit "nopreference") ]} ∅ Hall)
    as (rd' & ea' & -> & Ha' & Hk' & Hp' & He').
  rewrite Ha in Ha'. rewrite Hk, Hb in Hk'.
  exists (parse_finish rd' ea'), ea'. split; [done|].
  unfold parse_finish. rewrite Hk', Ha'. cbn.
  repeat split. intros n. rewrite He'.
  destruct (starts_with_underscore n); [|done].
  match goal with
  | |- context [last_setting ?m ?p] => by destruct (last_setting m p)
  end.
Qed.

Lemma parse_ac_headervalue_extra_attr_witness :
  exists r ea,
    parse_ac_headervalue PY3
      (lit "addr=a@b.org; _x=1; keydata=QUJD; _x=2") = Ret r
    /\ extra_attr r = Some ea
    /\ ea !! lit "_x" = Some (lit "2")
    /\ ea !! lit "addr" = None.
Proof.
  destruct (parse_ac_headervalue_extra_attr PY3
              (lit "addr=a@b.org; _x=1; keydata=QUJD; _x=2")
              (lit "a@b.org") (lit "QUJD"))
    as (r & ea & Hr & _ & He & Hl).
  - apply forallb_setting_ok. vm_compute. reflexivity.
  - vm_compute. reflexivity.
  - vm_compute. reflexivity.
  - exists r, ea. split; [exact Hr|]. split; [exact He|].
    split; [rewrite Hl; vm_compute; reflexivity | rewrite Hl; reflexivity].
Defined.

(** ** The encoder *)

Lemma rstrip_all_nonspace s : forallb nonspace s = true -> rstrip s = s.
Proof.
  unfold nonspace. induction s as [|c s IH]; [done|]. cbn [forallb rstrip].
  intros H. apply andb_true_iff in H as [Hc Hs]. rewrite (IH Hs).
  apply negb_true_iff in Hc. rewrite Hc. by destruct s.
Qed.

Lemma rstrip_app_nonempty a b :
  rstrip b <> [] -> rstrip (a ++ b) = a ++ rstrip b.
Proof.
  intros Hb. induction a as [|c a IH]; [done|]. cbn [app rstrip].
  rewrite IH. destruct (a ++ rstrip b) eqn:E; [|done].
  apply app_eq_nil in E as [_ E]. done.
Qed.

Lemma rstrip_join_lines (lines : list str) :
  lines <> [] ->
  Forall (fun ln => rstrip ln = ln /\ ln <> []) lines ->
  rstrip (join [ch 10] lines) = join [ch 10] lines /\ join [ch 10] lines <> [].
Proof.
  induction lines as [|x lines IH]; [done|]. intros _ Hall.
  inversion Hall as [|? ? [Hx Hxn] Hrest]; subst.
  destruct lines as [|y lines]; [done|].
  destruct IH as [IH1 IH2]; [done | done |].
  change (join [ch 10] (x :: y :: lines))
    with (x ++ [ch 10] ++ join [ch 10] (y :: lines)).
  split.
  - rewrite rstrip_app_nonempty.
    + f_equal. rewrite rstrip_app_nonempty by (by rewrite IH1).
      by rewrite IH1.
    + rewrite rstrip_app_nonempty by (by rewrite IH1). discriminate.
  - by destruct x.
Qed.

Lemma concat_lines {A} (f : A -> str) idx :
  idx <> [] ->
  concat (map (fun i => f i ++ [ch 10]) idx) = join [ch 10] (map f idx) ++ [ch 10].
Proof.
  induction idx as [|i idx IH]; [done|]. intros _.
  destruct idx as [|j idx]; [by cbn; rewrite app_nil_r|].
  change (concat (map (fun i => f i ++ [ch 10]) (i :: j :: idx)))
    with ((f i ++ [ch 10]) ++ concat (map (fun i => f i ++ [ch 10]) (j :: idx))).
  rewrite IH by done.
  change (join [ch 10] (map f (i :: j :: idx)))
    with (f i ++ [ch 10] ++ join [ch 10] (map f (j :: idx))).
  by rewrite <- !app_assoc.
Qed.

Lemma py_range_bound n step i :
  0 < step -> In i (py_range n step) -> i < n.
Proof.
  intros Hs Hin. unfold py_range in Hin.
  apply in_map_iff in Hin as (k & <- & Hk). apply in_seq in Hk.
  pose proof (Nat.div_mod_eq (n + step - 1) step) as Hd.
  pose proof (Nat.mod_upper_bound (n + step - 1) step) as Hm.
  nia.
Qed.

Lemma py_range_nonempty n step : 0 < step -> 0 < n -> py_range n step <> [].
Proof.
  intros Hs Hn. unfold py_range.
  assert (0 < (n + step - 1) / step).
  { apply Nat.div_str_pos. lia. }
  destruct ((n + step - 1) / step); [lia | discriminate].
Qed.

(** X5: for a non-empty value without whitespace, [indented_split] returns
    the chunks of at most 78 characters, each behind an indent of two
    blanks, joined by line breaks: no line is longer than 80 characters,
    there is no trailing line break, and the chunks make up the value. *)
Theorem indented_split_lines v :
  v <> [] ->
  forallb nonspace v = true ->
  let lines := map (fun i => lit "  " ++ slice v i (i + 78))
                   (py_range (length v) 78) in
  indented_split v = Ret (join [ch 10] lines)
  /\ Forall (fun ln => length ln <= 80 /\ firstn 2 ln = lit "  ") lines
  /\ concat (map (skipn 2) lines) = v.
Proof.
  intros Hv Hns lines.
  assert (Hlen : 0 < length v) by (destruct v; [done | simpl; lia]).
  assert (Hidx : py_range (length v) 78 <> [])
    by (apply py_range_nonempty; lia).
  split; [|split].
  - unfold indented_split.
    assert (existsb (Ascii.eqb (ch 10)) v = false) as ->.
    { apply not_true_is_false. intros H.
      apply existsb_exists in H as (c & Hc & He).
      apply Ascii.eqb_eq in He. subst c.
      rewrite forallb_forall in Hns. specialize (Hns _ Hc). discriminate. }
    f_equal.
    change (map (fun i => lit "  " ++ slice v i (i + 78) ++ [ch 10])
              (py_range (length v) 78))
      with (map (fun i => (lit "  " ++ slice v i (i + 78)) ++ [ch 10])
              (py_range (length v) 78)).
    rewrite (concat_lines (fun i => lit "  " ++ slice v i (i + 78))) by done.
    fold lines.
    destruct (rstrip_join_lines lines) as [Hr _].
    + unfold lines. by destruct (py_range (length v) 78).
    + unfold lines. apply List.Forall_forall. intros ln Hln.
      apply in_map_iff in Hln as (i & <- & Hi).
      apply py_range_bound in Hi; [|lia].
      assert (Hchunk : slice v i (i + 78) <> []).
      { rewrite slice_step. intros E.
        apply (f_equal (@length ascii)) in E.
        rewrite length_take, length_drop in E. cbn [length] in E. lia. }
      assert (Hfix : rstrip (slice v i (i + 78)) = slice v i (i + 78)).
      { apply rstrip_all_nonspace, forallb_forall. intros c Hc.
        rewrite forallb_forall in Hns. apply Hns.
        unfold slice in Hc. by apply in_firstn_skipn in Hc. }
      split; [|discriminate].
      rewrite rstrip_app_nonempty; by rewrite Hfix.
    + rewrite rstrip_app_fixed by done. apply app_nil_r.
  - unfold lines. apply List.Forall_forall. intros ln Hln.
    apply in_map_iff in Hln as (i & <- & Hi). split; [|done].
    rewrite length_app, slice_step, length_take. cbn [length lit list_ascii_of_string]. lia.
  - unfold lines. rewrite map_map. cbn [skipn app lit list_ascii_of_string].
    apply concat_slices. lia.
Qed.

Lemma indented_split_lines_witness :
  indented_split (lit "QUJD") = Ret (lit "  QUJD").
Proof.
  refine (proj1 (indented_split_lines (lit "QUJD") _ _)).
  - discriminate.
  - vm_compute. reflexivity.
Defined.

(** X6: for a byte string as key material the encoder fails exactly when
    the key is empty (the assertion); otherwise it returns the address
    segment, the preference segment unless the preference is the default,
    and the [keydata] segment, whose value is the base64 text of the key
    once the whitespace of the line wrapping is taken out. *)
Theorem make_ac_header_value_bytes a bs pref :
  (bs = [] -> make_ac_header_value a (KBytes bs) pref = Raise AssertionError)
  /\ (bs <> [] ->
      exists body,
        make_ac_header_value a (KBytes bs) pref
        = Ret (lit "addr=" ++ a ++ lit "; " ++ preference_segment pref
               ++ lit "keydata=" ++ ch 10 :: body)
        /\ List.filter nonspace body = b64encode bs).
Proof.
  split.
  - intros ->. reflexivity.
  - intros Hbs.
    destruct (indented_split_b64 (b64encode bs) (b64encode_chars bs))
      as (body & Hbody & Hf & _).
    exists body. split; [|done].
    unfold make_ac_header_value.
    assert (keyarg_truthy (KBytes bs) = true) as -> by (by destruct bs).
    cbn [negb]. rewrite Hbody. unfold preference_segment.
    destruct pref as [p|].
    + change (default (lit "nopreference") (Some p)) with p.
      destruct (str_eqb p (lit "nopreference")).
      * reflexivity.
      * cbn [app join]. by rewrite <- !app_assoc.
    + reflexivity.
Qed.

Lemma parse_parts_prefer_encrypt_unknown x parts rd ea v :
  setting x = Some (lit "prefer-encrypt", v) ->
  v <> lit "nopreference" ->
  v <> lit "mutual" ->
  parse_parts (x :: parts) rd ea
  = Ret (ac_error (lit "unknown prefer-encryp setting '" ++ v ++ lit "'")).
Proof.
  unfold setting. cbn [parse_parts].
  destruct (split_once "=" x) as [|n [|w [|? ?]]]; try discriminate.
  intros H H1 H2. read_setting H "prefer-encrypt"%string. eval_str_eqb.
  cbn iota.
  apply str_eqb_neq in H1, H2. by rewrite H1, H2.
Qed.

(** X7: the encoder does not check the preference.  For a non-empty key,
    an address and a preference that contain no [;] and have no whitespace
    at either end, and a preference that is neither [nopreference] nor
    [mutual] (such as the account settings [yes], [no] and [notset]), it
    returns a header that the parser answers with the error "unknown
    prefer-encryp setting" for that preference. *)
Theorem make_ac_header_value_unknown_preference ver a bs p :
  bs <> [] ->
  ~ In ";"%char a ->
  strip a = a ->
  ~ In ";"%char p ->
  strip p = p ->
  p <> lit "nopreference" ->
  p <> lit "mutual" ->
  exists header,
    make_ac_header_value a (KBytes bs) (Some p) = Ret header
    /\ parse_ac_headervalue ver header
       = Ret (ac_error (lit "unknown prefer-encryp setting '" ++ p ++ lit "'")).
Proof.
  intros Hbs Ha Hsa Hp Hsp Hn Hm.
  destruct (indented_split_b64 (b64encode bs) (b64encode_chars bs))
    as (body & Hbody & Hf & Hin).
  assert (Hb : ~ In ";"%char body).
  { intros H. destruct (Hin _ H) as [Hk|Hk]; [|discriminate Hk].
    pose proof (b64encode_chars bs) as Hc.
    rewrite List.Forall_forall in Hc.
    destruct (b64char_plain _ (Hc _ Hk)) as (_ & _ & Hsc & _).
    discriminate Hsc. }
  unfold make_ac_header_value.
  assert (keyarg_truthy (KBytes bs) = true) as -> by (by destruct bs).
  cbn [negb]. change (default (lit "nopreference") (Some p)) with p.
  rewrite Hbody.
  apply str_eqb_neq in Hn. rewrite Hn. apply str_eqb_neq in Hn.
  eexists. split; [reflexivity|].
  destruct (addr_segment a Hsa) as [HA1 HA2].
  destruct (strip_fixed p Hsp) as [_ Hrp].
  unfold parse_ac_headervalue, header_parts. cbn [app].
  rewrite split_char_join; cycle 1.
  { repeat constructor.
    - by apply not_in_app_lit.
    - by apply not_in_app_lit.
    - apply not_in_app_lit; [reflexivity|].
      intros [H|H]; [discriminate H | done]. }
  cbn [map]. rewrite HA1.
  assert (HP1 : strip (" "%char :: lit "prefer-encrypt=" ++ p)
                = lit "prefer-encrypt=" ++ p).
  { unfold strip.
    change (lstrip (" "%char :: lit "prefer-encrypt=" ++ p))
      with (lit "prefer-encrypt=" ++ p).
    rewrite rstrip_app_fixed by reflexivity. by rewrite Hrp. }
  assert (HP2 : setting (lit "prefer-encrypt=" ++ p)
                = Some (lit "prefer-encrypt", p)).
  { unfold setting.
    change (lit "prefer-encrypt=" ++ p)
      with (lit "prefer-encrypt" ++ "="%char :: p).
    rewrite split_once_app; [by rewrite Hsp|].
    cbn. intuition discriminate. }
  rewrite HP1. cbn [List.filter].
  rewrite !nonempty_kept by discriminate.
  rewrite truthy_cons. cbn [negb].
  rewrite (parse_parts_addr _ _ _ _ a HA2).
  by rewrite (parse_parts_prefer_encrypt_unknown _ _ _ _ p HP2 Hn Hm).
Qed.

Lemma make_ac_header_value_unknown_preference_witness :
  exists header,
    make_ac_header_value (lit "a@b.org") (KBytes ["A"%byte; "B"%byte; "C"%byte])
      (Some (lit "yes")) = Ret header
    /\ parse_ac_headervalue PY3 header
       = Ret (ac_error (lit "unknown prefer-encryp setting 'yes'")).
Proof.
  apply (make_ac_header_value_unknown_preference PY3 (lit "a@b.org")
           ["A"%byte; "B"%byte; "C"%byte] (lit "yes")).
  - discriminate.
  - apply (not_in_app_lit (lit "a@b.org") []); [reflexivity | intros []].
  - vm_compute. reflexivity.
  - apply (not_in_app_lit (lit "yes") []); [reflexivity | intros []].
  - vm_compute. reflexivity.
  - discriminate.
  - discriminate.
Defined.

(** ** Header selection: one valid header among rejected ones *)

(** X8: outside a [multipart/report] message, when exactly one header
    parses without error and passes the allow-list and every other header
    is rejected, selection returns that header, wherever it stands among
    the others. *)
Theorem selection_single_survivor ver msg FromList hs1 h hs2 r :
  content_type msg <> lit "multipart/report" ->
  autocrypt_headers msg = hs1 ++ h :: hs2 ->
  survives ver FromList h r ->
  Forall (fun h' => exists r', rejected ver FromList h' r') hs1 ->
  Forall (fun h' => exists r', rejected ver FromList h' r') hs2 ->
  parse_one_ac_header_from_msg ver msg FromList = Ret r.
Proof.
  intros Hct Hhs (Hp & He & Hf) H1 H2.
  unfold parse_one_ac_header_from_msg.
  apply str_eqb_neq in Hct. rewrite Hct, Hhs, collect_app.
  destruct (collect_none_survive ver FromList hs1 [] [] H1) as (rs1 & _ & ->).
  cbn [collect_ac_headers app]. rewrite Hp, (error_none_not_truthy r He), Hf.
  cbn [negb andb].
  destruct (collect_none_survive ver FromList hs2 [r] rs1 H2) as (rs2 & _ & ->).
  reflexivity.
Qed.

Lemma selection_single_survivor_witness :
  exists r,
    parse_one_ac_header_from_msg PY3
      (example_message "2020-03-03"
         [lit "foo=bar"; lit "addr=a@b.org; keydata=QUJD";
          lit "addr=c@d.org; keydata=QUJE"])
      (Some [lit "a@b.org"]) = Ret r
    /\ addr r = Some (lit "a@b.org").
Proof.
  eexists. split.
  - apply (selection_single_survivor PY3 _ (Some [lit "a@b.org"])
             [lit "foo=bar"] (lit "addr=a@b.org; keydata=QUJD")
             [lit "addr=c@d.org; keydata=QUJE"]).
    + vm_compute. discriminate.
    + reflexivity.
    + split; [vm_compute; reflexivity|]. split; vm_compute; reflexivity.
    + repeat constructor. eexists. split; [vm_compute; reflexivity|].
      left. vm_compute. reflexivity.
    + repeat constructor. eexists. split; [vm_compute; reflexivity|].
      right. vm_compute. reflexivity.
  - reflexivity.
Defined.




(** ** The parser: separators without content *)

Lemma split_char_nonempty sep s : split_char sep s <> [].
Proof.
  destruct s as [|c s]; [done|]. cbn [split_char].
  destruct (Ascii.eqb c sep); [done|]. by destruct (split_char sep s).
Qed.

Lemma split_char_snoc sep s :
  split_char sep (s ++ [sep]) = split_char sep s ++ [[]].
Proof.
  induction s as [|c s IH].
  - cbn. by rewrite Ascii.eqb_refl.
  - cbn [app split_char]. destruct (Ascii.eqb c sep); rewrite IH; [done|].
    pose proof (split_char_nonempty sep s).
    by destruct (split_char sep s).
Qed.

(** X10: a separator without content is ignored: a [;] before or after a
    header value does not change what the parser returns. *)
Theorem parse_ac_headervalue_ignores_empty_segments ver value :
  parse_ac_headervalue ver (value ++ lit ";") = parse_ac_headervalue ver value
  /\ parse_ac_headervalue ver (lit ";" ++ value)
     = parse_ac_headervalue ver value.
Proof.
  assert (H1 : header_parts (value ++ lit ";") = header_parts value).
  { unfold header_parts. change (lit ";") with [";"%char].
    rewrite split_char_snoc, map_app, List.filter_app. cbn.
    apply app_nil_r. }
  assert (H2 : header_parts (lit ";" ++ value) = header_parts value).
  { unfold header_parts. cbn [lit list_ascii_of_string app split_char].
    by rewrite Ascii.eqb_refl. }
  unfold parse_ac_headervalue. by rewrite H1, H2.
Qed.

(** ** The address a message was delivered to *)

(** X11: [get_delivered_to] returns a non-empty address or raises
    [ValueError]; the address of the [Delivered-To] header is returned
    whenever there is one, and the fallback is only read otherwise. *)
Theorem get_delivered_to_contract parse delivered_to fallback :
  (forall a, get_delivered_to parse delivered_to fallback = Ret a -> a <> [])
  /\ (forall e, get_delivered_to parse delivered_to fallback = Raise e ->
        e = ValueError /\ parse delivered_to = [])
  /\ (parse delivered_to <> [] ->
      get_delivered_to parse delivered_to fallback = Ret (parse delivered_to)).
Proof.
  unfold get_delivered_to.
  destruct (parse delivered_to) as [|c s] eqn:Hd.
  - split; [|split]; [| |done].
    + intros a.
      destruct fallback as [[|f fs]|]; try (intros H; discriminate H).
      match goal with
      | |- context [match ?x with [] => _ | _ :: _ => _ end] =>
          destruct x; [intros H; discriminate H|]
      end.
      intros [= <-]. discriminate.
    + intros e.
      destruct fallback as [[|f fs]|]; try (by intros [= <-]).
      match goal with
      | |- context [match ?x with [] => _ | _ :: _ => _ end] =>
          destruct x; [by intros [= <-] | intros H; discriminate H]
      end.
  - split; [|split]; [| |done].
    + intros a [= <-]. discriminate.
    + intros e H. discriminate H.
Qed.

(** ** Committing *)

(** X12: after [_commit] the working dictionary and the copy compare
    equal; if it reports a write, the file holds the working state; if not,
    nothing at all was changed; and a second [_commit] right after never
    writes. *)
Theorem commit_settles c :
  let c' := fst (_commit c) in
  deep (heap c') (_dict c') = deep (heap c') (_dict_old c')
  /\ (snd (_commit c) = Ret true ->
      file c' = Some (deep (heap c') (_dict c')))
  /\ (snd (_commit c) = Ret false -> c' = c)
  /\ _commit c' = (c', Ret false).
Proof.
  unfold _commit. destruct (decide _) as [He|Hne]; cbn [fst snd].
  - repeat split; try done. by rewrite decide_True.
  - repeat split; try done. cbn [heap _dict _dict_old].
    by rewrite decide_True.
Qed.

Lemma set_text_commit c name v :
  committed c ->
  let c1 := mkConfig (<[name := CStr v]> (_dict c)) (_dict_old c) (heap c)
              (file c) in
  file (fst (_commit c1))
  = Some (deep (heap (fst (_commit c1))) (_dict (fst (_commit c1))))
  /\ committed (fst (_commit c1)).
Proof.
  intros Hc c1. subst c1. unfold _commit.
  destruct (decide _) as [He|Hne]; cbn [fst heap _dict _dict_old file] in *.
  - unfold committed in *. cbn [file heap _dict_old].
    destruct (file c) as [f|] eqn:Hf.
    + subst f. split; [by rewrite He | done].
    + exfalso. rewrite Hc in He. unfold deep in He.
      rewrite fmap_empty in He.
      apply (f_equal (fun m => m !! name)) in He.
      by rewrite lookup_fmap, lookup_insert_eq, lookup_empty in He.
  - split; [done|]. unfold committed. by cbn.
Qed.

(** X13: [set_prefer_encrypt] on a configuration whose file is up to date.
    One of [yes], [no], [notset] is stored, returns normally, and leaves the
    file up to date with the working state.  Any other value raises
    [ValueError], the working dictionary is the copy of the last commit,
    and the file is not touched. *)
Theorem set_prefer_encrypt_contract c v :
  committed c ->
  (v ∈ [lit "yes"; lit "no"; lit "notset"] ->
   exists c',
     set_prefer_encrypt v c = (c', Ret tt)
     /\ _dict c' !! lit "prefer_encrypt" = Some (CStr v)
     /\ file c' = Some (deep (heap c') (_dict c'))
     /\ committed c')
  /\ (v ∉ [lit "yes"; lit "no"; lit "notset"] ->
      exists c',
        set_prefer_encrypt v c = (c', Raise ValueError)
        /\ _dict c' = _dict_old c
        /\ file c' = file c
        /\ committed c').
Proof.
  intros Hc. split; intros Hv.
  - unfold set_prefer_encrypt.
    pose (c1 := mkConfig (<[lit "prefer_encrypt" := CStr v]> (_dict c))
                  (_dict_old c) (heap c) (file c)).
    assert (Hb : persistent_set (lit "prefer_encrypt")
                   (Some [lit "yes"; lit "no"; lit "notset"]) v c
                 = (c1, Ret tt)).
    { unfold persistent_set. by rewrite bool_decide_eq_true_2. }
    exists (fst (_commit c1)).
    split; [by apply atomic_change_returns|].
    destruct (commit_keeps_working_state c1) as [Hd _].
    destruct (set_text_commit c (lit "prefer_encrypt") v Hc) as [Hf Hcm].
    split; [|by split].
    rewrite Hd. apply lookup_insert_eq.
  - eexists. split; [by apply set_prefer_encrypt_rejects|].
    split; [done|]. split; [done|].
    unfold committed in *. cbn [file heap _dict_old]. exact Hc.
Qed.

Lemma set_prefer_encrypt_contract_witness :
  exists c',
    set_prefer_encrypt (lit "yes") new_config = (c', Ret tt)
    /\ _dict c' !! lit "prefer_encrypt" = Some (CStr (lit "yes"))
    /\ file c' = Some (deep (heap c') (_dict c')).
Proof.
  assert (Hc : committed new_config) by reflexivity.
  destruct (proj1 (set_prefer_encrypt_contract new_config (lit "yes") Hc))
    as (c' & H1 & H2 & H3 & _).
  - apply list_elem_of_In. left. reflexivity.
  - exists c'. split; [exact H1|]. split; [exact H2 | exact H3].
Defined.

(** ** Processing an incoming message: every prior state *)

Lemma config_peers_cases c :
  (exists s, _dict c !! lit "peers" = Some (CStr s)
             /\ config_peers c = (c, Raise TypeError))
  \/ (exists l, _dict c !! lit "peers" = Some (CRef l)
                /\ config_peers c = (c, Ret l))
  \/ (_dict c !! lit "peers" = None
      /\ exists l c1,
           config_peers c = (c1, Ret l)
           /\ _dict c1 !! lit "peers" = Some (CRef l)
           /\ peers_view c1 = peers_view c).
Proof.
  unfold config_peers.
  destruct (_dict c !! lit "peers") as [[s|l]|] eqn:Hp.
  - left. by exists s.
  - right. left. by exists l.
  - right. right. split; [done|]. eexists _, _. split; [reflexivity|].
    split; [cbn; apply lookup_insert_eq|].
    unfold peers_view. cbn [_dict heap].
    by rewrite Hp, !lookup_insert_eq.
Qed.

(** On a configuration without [peers] entry, [process_incoming] goes on
    as on the configuration with the new, empty entry. *)
Lemma process_incoming_fresh E ver msg c l c1 :
  config_peers c = (c1, Ret l) ->
  _dict c1 !! lit "peers" = Some (CRef l) ->
  process_incoming E ver msg c = process_incoming E ver msg c1.
Proof.
  intros Hc Hl. unfold process_incoming.
  unfold bindM at 1. rewrite Hc.
  symmetry. unfold bindM at 1. by rewrite (config_peers_existing c1 l Hl).
Qed.

Lemma stored_of_view c c' :
  peers_view c' = peers_view c -> forall a, stored c' a = stored c a.
Proof. intros H a. unfold stored. by rewrite H. Qed.

(** With a [peers] entry: whatever the outcome, the configuration is left
    as it was or the record of the sender is replaced. *)
Lemma process_incoming_touches_sender_only E ver msg c l c' r :
  _dict c !! lit "peers" = Some (CRef l) ->
  process_incoming E ver msg c = (c', r) ->
  c' = c
  \/ exists rec, peers_view c' = <[sender E msg := rec]> (peers_view c).
Proof.
  intros Hl. rewrite (process_incoming_entry E ver msg c l Hl).
  destruct (dict_truthy (mime_parse_one_ac_header_from_msg E msg)).
  - unfold bindM at 1. unfold liftM at 1.
    destruct (getitem _ _) as [to|e]; [|intros [= <- _]; by left].
    destruct (bool_decide _); [|intros [= <- _]; by left].
    unfold bindM at 1. unfold liftM at 1.
    destruct (parsed_ge _ _ _) as [[|]|e];
      [|intros [= <- _]; by left|intros [= <- _]; by left].
    cbv zeta.
    unfold bindM at 1. unfold liftM at 1.
    destruct (getitem _ _) as [key|e]; [|intros [= <- _]; by left].
    unfold bindM at 1. unfold liftM at 1.
    destruct (b64decode_val key) as [kd|e]; [|intros [= <- _]; by left].
    unfold bindM at 1. unfold liftM at 1.
    destruct (import_keydata E kd) as [kh|e]; [|intros [= <- _]; by left].
    match goal with
    | |- context [atomic_change (set_peer ?a ?d)] =>
        destruct (atomic_set_peer c l a d Hl) as (c2 & Hc2 & Hv & _)
    end.
    unfold bindM at 1. rewrite Hc2.
    unfold bindM, liftM, retM.
    destruct (make_PeerInfo _); intros [= <- _]; right; eauto.
  - destruct (dict_truthy (stored c (sender E msg))).
    + destruct (atomic_set_peer c l (sender E msg) ∅ Hl) as (c2 & Hc2 & Hv & _).
      unfold bindM. rewrite Hc2. intros [= <- _]. right; eauto.
    + intros [= <- _]. by left.
Qed.

(** X14: whatever the message, the prior state and the outcome (a result
    or an exception), [process_incoming] leaves the records of all peers
    other than the sender as they were. *)
Theorem process_incoming_frame E ver msg c c' r :
  process_incoming E ver msg c = (c', r) ->
  forall a, a <> sender E msg -> stored c' a = stored c a.
Proof.
  intros Hp a Ha.
  destruct (config_peers_cases c)
    as [(s & Hs & Hc) | [(l & Hl & Hc) | (Hn & l & c1 & Hc & Hl & Hv)]].
  - unfold process_incoming in Hp. unfold bindM at 1 in Hp.
    rewrite Hc in Hp. by injection Hp as <- _.
  - destruct (process_incoming_touches_sender_only E ver msg c l c' r Hl Hp)
      as [-> | (rec & Hr)]; [done|].
    by apply (stored_insert_ne c c' (sender E msg) a rec).
  - rewrite (process_incoming_fresh E ver msg c l c1 Hc Hl) in Hp.
    rewrite <- (stored_of_view c c1 Hv a).
    destruct (process_incoming_touches_sender_only E ver msg c1 l c' r Hl Hp)
      as [-> | (rec & Hr)]; [done|].
    by apply (stored_insert_ne c1 c' (sender E msg) a rec).
Qed.

Lemma process_incoming_frame_witness :
  stored (fst (process_incoming example_externals PY3
                 (example_message "2020-03-03" []) example_config))
    (lit "x@y.org")
  = stored example_config (lit "x@y.org").
Proof.
  apply (process_incoming_frame example_externals PY3
           (example_message "2020-03-03" []) example_config
           _ (snd (process_incoming example_externals PY3
                     (example_message "2020-03-03" []) example_config))).
  - by destruct (process_incoming example_externals PY3
                   (example_message "2020-03-03" []) example_config).
  - vm_compute. intros H. discriminate H.
Defined.

(** A well-typed configuration behaves like one that has a [peers]
    entry: the first read of [self.config.peers] creates it, empty. *)
Lemma with_peers E ver msg c :
  peers_well_typed c ->
  exists l c1,
    process_incoming E ver msg c = process_incoming E ver msg c1
    /\ _dict c1 !! lit "peers" = Some (CRef l)
    /\ peers_view c1 = peers_view c.
Proof.
  intros Hwt.
  destruct (config_peers_cases c)
    as [(s & Hs & _) | [(l & Hl & _) | (_ & l & c1 & Hc & Hl & Hv)]].
  - by destruct (Hwt s).
  - by exists l, c.
  - exists l, c1. split; [|done]. by apply (process_incoming_fresh E ver msg c l).
Qed.

(** X15: a header that names another address than the sender of the
    message is not used: processing returns without result and no peer
    record changes. *)
Theorem process_incoming_foreign_address E ver msg c v :
  peers_well_typed c ->
  dict_truthy (mime_parse_one_ac_header_from_msg E msg) = true ->
  mime_parse_one_ac_header_from_msg E msg !! lit "to" = Some v ->
  v <> JStr (sender E msg) ->
  exists c',
    process_incoming E ver msg c = (c', Ret None)
    /\ peers_view c' = peers_view c.
Proof.
  intros Hwt Ht Hto Hne.
  destruct (with_peers E ver msg c Hwt) as (l & c1 & -> & Hl & Hv).
  exists c1. split; [|done].
  by apply (process_incoming_other_address E ver msg c1 l Hl v).
Qed.

Lemma process_incoming_foreign_address_witness :
  let spoofed :=
    mkMessage (lit "text/plain") [lit "addr=a@b.org; keydata=QUJE"]
      (Some (lit "x@y.org")) (Some (lit "2020-03-03")) in
  exists c',
    process_incoming example_externals PY3 spoofed new_config = (c', Ret None)
    /\ peers_view c' = peers_view new_config.
Proof.
  intros spoofed.
  apply (process_incoming_foreign_address example_externals PY3 spoofed
           new_config (JStr (lit "a@b.org"))).
  - intros s. vm_compute. discriminate.
  - vm_compute. reflexivity.
  - vm_compute. reflexivity.
  - vm_compute. discriminate.
Defined.

(** X16: on Python 3, a header for the sender in a message whose date
    [parsedate] cannot read (a missing [Date] header among them) makes the
    date comparison raise [TypeError]; no peer record changes. *)
Theorem process_incoming_unreadable_date_py3 E msg c :
  peers_well_typed c ->
  dict_truthy (mime_parse_one_ac_header_from_msg E msg) = true ->
  mime_parse_one_ac_header_from_msg E msg !! lit "to"
  = Some (JStr (sender E msg)) ->
  parsedate E (jval_of (date_header msg)) = None ->
  exists c',
    process_incoming E PY3 msg c = (c', Raise TypeError)
    /\ peers_view c' = peers_view c.
Proof.
  intros Hwt Ht Hto Hd.
  destruct (with_peers E PY3 msg c Hwt) as (l & c1 & -> & Hl & Hv).
  exists c1. split; [|done].
  rewrite (process_incoming_entry E PY3 msg c1 l Hl), Ht.
  unfold bindM, liftM, getitem. rewrite Hto.
  rewrite bool_decide_eq_true_2 by done. by rewrite Hd.
Qed.

Lemma process_incoming_unreadable_date_py3_witness :
  let undated :=
    mkMessage (lit "text/plain") [lit "addr=a@b.org; keydata=QUJE"]
      (Some (lit "a@b.org")) None in
  exists c',
    process_incoming example_externals PY3 undated new_config
    = (c', Raise TypeError)
    /\ peers_view c' = peers_view new_config.
Proof.
  intros undated.
  apply (process_incoming_unreadable_date_py3 example_externals undated
           new_config).
  - intros s. vm_compute. discriminate.
  - vm_compute. reflexivity.
  - vm_compute. reflexivity.
  - reflexivity.
Defined.

Lemma make_PeerInfo_accepted d date kh :
  make_PeerInfo (accepted_record d date kh) = Ret (accepted_info d date kh).
Proof.
  unfold make_PeerInfo, accepted_info, accepted_record.
  rewrite lookup_insert_eq.
  rewrite lookup_insert_ne by discriminate. by rewrite lookup_insert_eq.
Qed.

Lemma process_incoming_accepts_info E ver msg c l k kd kh :
  let From := sender E msg in
  let d := mime_parse_one_ac_header_from_msg E msg in
  let new_date := jval_of (date_header msg) in
  _dict c !! lit "peers" = Some (CRef l) ->
  dict_truthy d = true ->
  d !! lit "to" = Some (JStr From) ->
  parsed_ge ver (parsedate E new_date)
    (parsedate E (default new_date (stored c From !! lit "*date")))
  = Ret true ->
  d !! lit "key" = Some k ->
  b64decode_val k = Ret kd ->
  import_keydata E kd = Ret kh ->
  exists c',
    process_incoming E ver msg c
    = (c', Ret (Some (accepted_info d new_date kh)))
    /\ peers_view c' = <[From := accepted_record d new_date kh]> (peers_view c)
    /\ _dict c' = _dict c.
Proof.
  intros From d new_date Hl Ht Hto Hge Hk Hkd Hkh.
  rewrite (process_incoming_entry E ver msg c l Hl).
  fold d From new_date. rewrite Ht.
  unfold bindM at 1. unfold liftM at 1. unfold getitem at 1. rewrite Hto.
  rewrite bool_decide_eq_true_2 by done.
  unfold bindM at 1. unfold liftM at 1. rewrite Hge. cbv zeta.
  unfold bindM at 1. unfold liftM at 1. unfold getitem at 1.
  rewrite lookup_insert_ne by discriminate. rewrite Hk.
  unfold bindM at 1. unfold liftM at 1. rewrite Hkd.
  unfold bindM at 1. unfold liftM at 1. rewrite Hkh.
  fold (accepted_record d new_date kh).
  destruct (atomic_set_peer c l From (accepted_record d new_date kh) Hl)
    as (c' & Hc & Hv & Hd).
  unfold bindM at 1. rewrite Hc.
  unfold bindM, liftM. rewrite make_PeerInfo_accepted.
  by exists c'.
Qed.

Lemma parsed_ge_self ver p q :
  parsed_ge ver p q = Ret true -> parsed_ge ver p p = Ret true.
Proof.
  destruct p as [x|], q as [y|], ver; cbn; try discriminate;
    intros _; by rewrite ?tuple_ge_refl.
Qed.

(** X17: the first header of a sender is accepted whatever its date: when
    no date is stored for the sender, the date of the message is compared
    with itself.  The record of the sender becomes the header with the
    date of the message and the handle of the imported key. *)
Theorem process_incoming_first_contact E ver msg c t k kd kh :
  let From := sender E msg in
  let d := mime_parse_one_ac_header_from_msg E msg in
  let new_date := jval_of (date_header msg) in
  peers_well_typed c ->
  dict_truthy d = true ->
  d !! lit "to" = Some (JStr From) ->
  stored c From !! lit "*date" = None ->
  parsedate E new_date = Some t ->
  d !! lit "key" = Some k ->
  b64decode_val k = Ret kd ->
  import_keydata E kd = Ret kh ->
  exists c',
    process_incoming E ver msg c
    = (c', Ret (Some (accepted_info d new_date kh)))
    /\ stored c' From = accepted_record d new_date kh.
Proof.
  intros From d new_date Hwt Ht Hto Hnd Hpd Hk Hkd Hkh.
  destruct (with_peers E ver msg c Hwt) as (l & c1 & -> & Hl & Hv).
  destruct (process_incoming_accepts_info E ver msg c1 l k kd kh Hl Ht Hto)
    as (c' & Hp & Hv' & _); try done.
  { rewrite (stored_of_view c c1 Hv). fold From. rewrite Hnd.
    change (default (jval_of (date_header msg)) None) with new_date.
    fold new_date. rewrite Hpd.
    change (parsed_ge ver (Some t) (Some t)) with (@Ret bool (tuple_ge t t)).
    by rewrite tuple_ge_refl. }
  exists c'. split; [done|]. by apply (stored_insert_eq c1).
Qed.

Lemma process_incoming_first_contact_witness :
  let first :=
    example_message "1999-01-01" [lit "addr=a@b.org; keydata=QUJD"] in
  exists c',
    process_incoming example_externals PY3 first new_config
    = (c', Ret (Some (accepted_info
                        (mime_parse_one_ac_header_from_msg example_externals
                           first)
                        (JStr (lit "1999-01-01")) (lit "KEYHANDLE"))))
    /\ stored c' (lit "a@b.org") !! lit "*date"
       = Some (JStr (lit "1999-01-01")).
Proof.
  intros first.
  destruct (process_incoming_first_contact example_externals PY3 first
              new_config
              (map (fun c => Z.of_N (N_of_ascii c)) (lit "1999-01-01"))
              (JStr (lit "QUJD")) ["A"%byte; "B"%byte; "C"%byte]
              (lit "KEYHANDLE"))
    as (c' & Hp & Hs).
  - intros s. vm_compute. discriminate.
  - vm_compute. reflexivity.
  - vm_compute. reflexivity.
  - vm_compute. reflexivity.
  - reflexivity.
  - vm_compute. reflexivity.
  - vm_compute. reflexivity.
  - reflexivity.
  - exists c'. split; [exact Hp|].
    change (lit "a@b.org") with (sender example_externals first).
    rewrite Hs. unfold accepted_record.
    rewrite lookup_insert_ne by discriminate. apply lookup_insert_eq.
Defined.

(** X18: processing is idempotent.  When a message is accepted, processing
    the same message once more returns the same peer information and
    leaves every peer record as the first processing left it. *)
Theorem process_incoming_idempotent E ver msg c k kd kh :
  let From := sender E msg in
  let d := mime_parse_one_ac_header_from_msg E msg in
  let new_date := jval_of (date_header msg) in
  peers_well_typed c ->
  dict_truthy d = true ->
  d !! lit "to" = Some (JStr From) ->
  parsed_ge ver (parsedate E new_date)
    (parsedate E (default new_date (stored c From !! lit "*date")))
  = Ret true ->
  d !! lit "key" = Some k ->
  b64decode_val k = Ret kd ->
  import_keydata E kd = Ret kh ->
  exists c' c'' pi,
    process_incoming E ver msg c = (c', Ret (Some pi))
    /\ process_incoming E ver msg c' = (c'', Ret (Some pi))
    /\ peers_view c'' = peers_view c'.
Proof.
  intros From d new_date Hwt Ht Hto Hge Hk Hkd Hkh.
  destruct (with_peers E ver msg c Hwt) as (l & c1 & -> & Hl & Hv).
  destruct (process_incoming_accepts_info E ver msg c1 l k kd kh Hl Ht Hto)
    as (c' & Hp & Hv' & Hd'); try done.
  { by rewrite (stored_of_view c c1 Hv). }
  assert (Hl' : _dict c' !! lit "peers" = Some (CRef l)) by (by rewrite Hd').
  assert (Hs' : stored c' From !! lit "*date" = Some new_date).
  { unfold From. rewrite (stored_insert_eq c1 c' _ _ Hv').
    unfold accepted_record.
    rewrite lookup_insert_ne by discriminate. apply lookup_insert_eq. }
  destruct (process_incoming_accepts_info E ver msg c' l k kd kh Hl' Ht Hto)
    as (c'' & Hp' & Hv'' & _); try done.
  { fold From new_date. rewrite Hs'.
    change (default new_date (Some new_date)) with new_date.
    by apply (parsed_ge_self ver _ _ Hge). }
  exists c', c'', (accepted_info d new_date kh).
  split; [done|]. split; [done|].
  rewrite Hv'', Hv'. apply insert_insert_eq.
Qed.

Lemma process_incoming_idempotent_witness :
  let first :=
    example_message "2020-02-02" [lit "addr=a@b.org; keydata=QUJD"] in
  exists c' c'' pi,
    process_incoming example_externals PY3 first new_config
    = (c', Ret (Some pi))
    /\ process_incoming example_externals PY3 first c' = (c'', Ret (Some pi))
    /\ peers_view c'' = peers_view c'.
Proof.
  intros first.
  apply (process_incoming_idempotent example_externals PY3 first new_config
           (JStr (lit "QUJD")) ["A"%byte; "B"%byte; "C"%byte]
           (lit "KEYHANDLE")).
  - intros s. vm_compute. discriminate.
  - vm_compute. reflexivity.
  - vm_compute. reflexivity.
  - vm_compute. reflexivity.
  - vm_compute. reflexivity.
  - vm_compute. reflexivity.
  - reflexivity.
Defined.

(** X19: a failure between the date test and the store leaves every peer
    record as it was.  When the accepted header has no [key] entry, when
    its key is not base64 text, or when the key ring refuses the key,
    [process_incoming] raises that exception and no record changes. *)
Theorem process_incoming_key_failure E ver msg c :
  let From := sender E msg in
  let d := mime_parse_one_ac_header_from_msg E msg in
  let new_date := jval_of (date_header msg) in
  peers_well_typed c ->
  dict_truthy d = true ->
  d !! lit "to" = Some (JStr From) ->
  parsed_ge ver (parsedate E new_date)
    (parsedate E (default new_date (stored c From !! lit "*date")))
  = Ret true ->
  (d !! lit "key" = None ->
   exists c', process_incoming E ver msg c = (c', Raise (KeyError (lit "key")))
              /\ peers_view c' = peers_view c)
  /\ (forall k e,
        d !! lit "key" = Some k -> b64decode_val k = Raise e ->
        exists c', process_incoming E ver msg c = (c', Raise e)
                   /\ peers_view c' = peers_view c)
  /\ (forall k kd e,
        d !! lit "key" = Some k -> b64decode_val k = Ret kd ->
        import_keydata E kd = Raise e ->
        exists c', process_incoming E ver msg c = (c', Raise e)
                   /\ peers_view c' = peers_view c).
Proof.
  intros From d new_date Hwt Ht Hto Hge.
  destruct (with_peers E ver msg c Hwt) as (l & c1 & -> & Hl & Hv).
  rewrite <- (stored_of_view c c1 Hv) in Hge.
  assert (Hstart :
    process_incoming E ver msg c1
    = (key <~ liftM (getitem (<[lit "*date" := new_date]> d) (lit "key")) ;;
       keydata <~ liftM (b64decode_val key) ;;
       keyhandle <~ liftM (import_keydata E keydata) ;;
       atomic_change
         (set_peer From (accepted_record d new_date keyhandle)) ;;;
       pi <~ liftM (make_PeerInfo (accepted_record d new_date keyhandle)) ;;
       retM (Some pi))%py c1).
  { rewrite (process_incoming_entry E ver msg c1 l Hl).
    fold d From new_date. rewrite Ht.
    unfold bindM at 1. unfold liftM at 1. unfold getitem at 1. rewrite Hto.
    rewrite bool_decide_eq_true_2 by done.
    unfold bindM at 1. unfold liftM at 1. by rewrite Hge. }
  rewrite Hstart. unfold bindM, liftM, getitem.
  rewrite lookup_insert_ne by discriminate.
  split; [|split].
  - intros ->. by exists c1.
  - intros k e -> ->. by exists c1.
  - intros k kd e -> -> ->. by exists c1.
Qed.

Lemma process_incoming_key_failure_witness :
  let msg := example_message "2020-03-03" [] in
  exists c',
    process_incoming example_externals_bad_key PY3 msg new_config
    = (c', Raise BinasciiError)
    /\ peers_view c' = peers_view new_config.
Proof.
  intros msg.
  refine (proj1 (proj2 (process_incoming_key_failure example_externals_bad_key
                          PY3 msg new_config _ _ _ _))
            (JStr (lit "A")) BinasciiError _ _).
  - intros s. vm_compute. discriminate.
  - vm_compute. reflexivity.
  - vm_compute. reflexivity.
  - vm_compute. reflexivity.
  - vm_compute. reflexivity.
  - vm_compute. reflexivity.
Defined.

(** X20: [PeerInfo(d)] needs both bookkeeping entries and raises
    [KeyError] without them, [*keyhandle] first.  Otherwise it carries the
    key handle and the date, and item access gives the other entries of
    [d] and raises [KeyError] for the two bookkeeping names. *)
Theorem make_PeerInfo_contract d :
  (d !! lit "*keyhandle" = None ->
   make_PeerInfo d = Raise (KeyError (lit "*keyhandle")))
  /\ (d !! lit "*keyhandle" <> None -> d !! lit "*date" = None ->
      make_PeerInfo d = Raise (KeyError (lit "*date")))
  /\ (forall kh dt,
        d !! lit "*keyhandle" = Some kh -> d !! lit "*date" = Some dt ->
        exists pi,
          make_PeerInfo d = Ret pi
          /\ keyhandle pi = kh /\ date pi = dt
          /\ peerinfo_getitem pi (lit "*keyhandle")
             = Raise (KeyError (lit "*keyhandle"))
          /\ peerinfo_getitem pi (lit "*date") = Raise (KeyError (lit "*date"))
          /\ forall k, k <> lit "*keyhandle" -> k <> lit "*date" ->
               peerinfo_getitem pi k = getitem d k).
Proof.
  unfold make_PeerInfo. split; [|split].
  - by intros ->.
  - intros H1 ->. by destruct (d !! lit "*keyhandle").
  - intros kh dt -> ->. eexists. split; [reflexivity|].
    unfold peerinfo_getitem, getitem. cbn [pi_dict keyhandle date].
    split; [done|]. split; [done|]. split; [|split].
    + rewrite lookup_delete_ne by discriminate.
      by rewrite lookup_delete_eq.
    + by rewrite lookup_delete_eq.
    + intros k Hk Hd. by rewrite !lookup_delete_ne.
Qed.

Lemma get_peerinfo_stored c l a :
  _dict c !! lit "peers" = Some (CRef l) ->
  stored c a <> ∅ ->
  get_peerinfo a c
  = (c, match make_PeerInfo (stored c a) with
        | Ret pi => Ret (Some pi)
        | Raise e => Raise e
        end).
Proof.
  intros Hl Hs. unfold get_peerinfo, bindM.
  rewrite (config_peers_existing c l Hl).
  unfold stored, peers_view in *. rewrite Hl in Hs |- *.
  destruct (default ∅ (heap c !! l) !! a) as [st|] eqn:Hst; [|done].
  change (default ∅ (Some st)) with st in *. unfold dict_truthy.
  rewrite bool_decide_eq_false_2 by done. cbn [negb].
  by destruct (make_PeerInfo st).
Qed.

(** X21: what [process_incoming] stores, [get_peerinfo] reads back.  After
    a message was accepted, [get_peerinfo] for the sender returns the same
    peer information as [process_incoming] did, with the handle of the
    imported key and the date of the message, and does not change the
    configuration. *)
Theorem get_peerinfo_after_accept E ver msg c k kd kh :
  let From := sender E msg in
  let d := mime_parse_one_ac_header_from_msg E msg in
  let new_date := jval_of (date_header msg) in
  peers_well_typed c ->
  dict_truthy d = true ->
  d !! lit "to" = Some (JStr From) ->
  parsed_ge ver (parsedate E new_date)
    (parsedate E (default new_date (stored c From !! lit "*date")))
  = Ret true ->
  d !! lit "key" = Some k ->
  b64decode_val k = Ret kd ->
  import_keydata E kd = Ret kh ->
  exists c' pi,
    process_incoming E ver msg c = (c', Ret (Some pi))
    /\ get_peerinfo From c' = (c', Ret (Some pi))
    /\ keyhandle pi = JStr kh
    /\ date pi = new_date
    /\ peerinfo_getitem pi (lit "to") = Ret (JStr From).
Proof.
  intros From d new_date Hwt Ht Hto Hge Hk Hkd Hkh.
  destruct (with_peers E ver msg c Hwt) as (l & c1 & -> & Hl & Hv).
  destruct (process_incoming_accepts_info E ver msg c1 l k kd kh Hl Ht Hto)
    as (c' & Hp & Hv' & Hd'); try done.
  { by rewrite (stored_of_view c c1 Hv). }
  assert (Hl' : _dict c' !! lit "peers" = Some (CRef l)) by (by rewrite Hd').
  assert (Hs : stored c' From = accepted_record d new_date kh)
    by (by apply (stored_insert_eq c1)).
  exists c', (accepted_info d new_date kh).
  split; [done|]. split.
  - rewrite (get_peerinfo_stored c' l From Hl').
    + by rewrite Hs, make_PeerInfo_accepted.
    + rewrite Hs. unfold accepted_record. intros He.
      apply (f_equal (fun m => m !! lit "*keyhandle")) in He.
      by rewrite lookup_insert_eq, lookup_empty in He.
  - split; [done|]. split; [done|].
    unfold peerinfo_getitem, getitem, accepted_info, accepted_record.
    cbn [pi_dict].
    rewrite !lookup_delete_ne by discriminate.
    rewrite !lookup_insert_ne by discriminate. fold d. by rewrite Hto.
Qed.

Lemma get_peerinfo_after_accept_witness :
  let first :=
    example_message "2020-02-02" [lit "addr=a@b.org; keydata=QUJD"] in
  exists c' pi,
    process_incoming example_externals PY3 first new_config
    = (c', Ret (Some pi))
    /\ get_peerinfo (lit "a@b.org") c' = (c', Ret (Some pi))
    /\ keyhandle pi = JStr (lit "KEYHANDLE").
Proof.
  intros first.
  destruct (get_peerinfo_after_accept example_externals PY3 first new_config
              (JStr (lit "QUJD")) ["A"%byte; "B"%byte; "C"%byte]
              (lit "KEYHANDLE"))
    as (c' & pi & H1 & H2 & H3 & _).
  - intros s. vm_compute. discriminate.
  - vm_compute. reflexivity.
  - vm_compute. reflexivity.
  - vm_compute. reflexivity.
  - vm_compute. reflexivity.
  - vm_compute. reflexivity.
  - reflexivity.
  - exists c', pi. split; [exact H1|]. split; [exact H2 | exact H3].
Defined.

(** ** The atomic change scope on text values *)

Lemma committed_in_sync c :
  committed c ->
  deep (heap c) (_dict c) = deep (heap c) (_dict_old c) ->
  match file c with
  | Some f => f = deep (heap c) (_dict c)
  | None => _dict c = ∅
  end.
Proof.
  unfold committed. intros Hc He. destruct (file c) as [f|].
  - by rewrite He.
  - rewrite Hc in He. unfold deep in He. rewrite fmap_empty in He.
    by apply fmap_empty_inv in He.
Qed.

(** X22: for a scope that changes no dictionary object and neither the
    copy of the last commit nor the file, and a configuration whose file is
    up to date, [atomic_change] is all or nothing.  If the scope raises, the
    exception is raised again, the working dictionary is the copy of the
    last commit and the file is untouched.  If it returns, the file is up to
    date with the working dictionary afterwards. *)
Theorem atomic_change_flat_scope {A} (body : M A) c :
  heap (fst (body c)) = heap c ->
  _dict_old (fst (body c)) = _dict_old c ->
  file (fst (body c)) = file c ->
  committed c ->
  let c' := fst (atomic_change body c) in
  committed c'
  /\ deep (heap c') (_dict c') = deep (heap c') (_dict_old c')
  /\ (forall e, snd (body c) = Raise e ->
        snd (atomic_change body c) = Raise e
        /\ _dict c' = _dict_old c /\ file c' = file c)
  /\ (forall a, snd (body c) = Ret a ->
        snd (atomic_change body c) = Ret a
        /\ _dict c' = _dict (fst (body c))
        /\ match file c' with
           | Some f => f = deep (heap c') (_dict c')
           | None => _dict c' = ∅
           end).
Proof.
  intros Hh Ho Hf Hc. unfold atomic_change.
  destruct (body c) as [c1 [a|e]] eqn:Hb; cbn [fst snd] in *.
  - assert (Hc1 : committed c1).
    { unfold committed in *. by rewrite Hf, Hh, Ho. }
    assert (Hcm : committed (fst (_commit c1))
                  /\ deep (heap (fst (_commit c1))) (_dict (fst (_commit c1)))
                     = deep (heap (fst (_commit c1)))
                         (_dict_old (fst (_commit c1)))).
    { unfold _commit. destruct (decide _) as [He|Hne]; cbn [fst].
      - done.
      - split; [|done]. unfold committed. by cbn. }
    destruct Hcm as [Hcm Heq].
    destruct (commit_keeps_working_state c1) as [Hd _].
    destruct (_commit c1) as [c2 w] eqn:Hc2. cbn [fst snd] in *.
    split; [done|]. split; [done|]. split; [intros e0 H; discriminate H|].
    intros a0 [= <-]. split; [done|]. split; [done|].
    by apply committed_in_sync.
  - split; [|split; [done|split]].
    + unfold committed in *. cbn [file heap _dict_old]. by rewrite Hf, Hh, Ho.
    + intros e0 [= <-]. by cbn.
    + intros a0 H. discriminate H.
Qed.

Lemma atomic_change_flat_scope_witness :
  let body := persistent_set (lit "gpgmode") (Some [lit "system"; lit "own"])
                (lit "other") in
  snd (atomic_change body new_config) = Raise ValueError
  /\ _dict (fst (atomic_change body new_config)) = _dict_old new_config.
Proof.
  intros body.
  destruct (atomic_change_flat_scope body new_config)
    as (_ & _ & Hr & _); try reflexivity.
  destruct (Hr ValueError) as (H1 & H2 & _); [reflexivity|].
  split; [exact H1 | exact H2].
Defined.

(** ** The parser: whitespace inside the key *)

(** X23: whitespace inside a [keydata] value does not matter: two
    [keydata] segments whose values agree once all whitespace is taken out
    make the loop of the parser go on in the same way. *)
Theorem parse_parts_keydata_whitespace x x' v v' parts rd ea :
  setting x = Some (lit "keydata", v) ->
  setting x' = Some (lit "keydata", v') ->
  List.filter nonspace v = List.filter nonspace v' ->
  parse_parts (x :: parts) rd ea = parse_parts (x' :: parts) rd ea.
Proof.
  intros Hx Hx' Hv.
  assert (Hk : decode_keydata (concat (split_ws v))
               = decode_keydata (concat (split_ws v')))
    by (by rewrite !split_ws_concat, Hv).
  destruct (decode_keydata (concat (split_ws v))) as [b|e] eqn:Hd.
  - rewrite (parse_parts_keydata x parts rd ea v b Hx Hd).
    by rewrite (parse_parts_keydata x' parts rd ea v' b Hx').
  - unfold setting in Hx, Hx'. cbn [parse_parts].
    destruct (split_once "=" x) as [|n [|w [|? ?]]]; try discriminate.
    destruct (split_once "=" x') as [|n' [|w' [|? ?]]]; try discriminate.
    read_setting Hx "keydata"%string. read_setting Hx' "keydata"%string.
    eval_str_eqb. cbn iota. by rewrite <- Hk, Hd.
Qed.

Lemma parse_parts_keydata_whitespace_witness :
  parse_parts [lit "keydata=QU JD"] ∅ ∅ = parse_parts [lit "keydata=QUJD"] ∅ ∅.
Proof.
  apply (parse_parts_keydata_whitespace (lit "keydata=QU JD")
           (lit "keydata=QUJD") (lit "QU JD") (lit "QUJD") [] ∅ ∅).
  - vm_compute. reflexivity.
  - vm_compute. reflexivity.
  - vm_compute. reflexivity.
Defined.

(** ** Header selection: nothing survives *)

(** X24: outside a [multipart/report] message, when no header survives,
    selection returns what the first header parsed to, whatever the later
    headers parsed to; for a message without any Autocrypt header it
    returns the error "no valid Autocrypt header found". *)
Theorem selection_without_survivor ver msg FromList :
  content_type msg <> lit "multipart/report" ->
  Forall (fun h => exists r, rejected ver FromList h r)
         (autocrypt_headers msg) ->
  parse_one_ac_header_from_msg ver msg FromList
  = match autocrypt_headers msg with
    | h :: _ => parse_ac_headervalue ver h
    | [] => Ret (ac_error (lit "no valid Autocrypt header found"))
    end.
Proof.
  intros Hct Hall.
  destruct (autocrypt_headers msg) as [|h hs] eqn:Hhs.
  - unfold parse_one_ac_header_from_msg.
    apply str_eqb_neq in Hct. by rewrite Hct, Hhs.
  - rewrite <- Hhs in Hall.
    by apply (selection_no_survivor_returns_first ver msg FromList h hs).
Qed.

Lemma selection_without_survivor_witness :
  parse_one_ac_header_from_msg PY3
    (example_message "2020-03-03" [lit "foo=bar"; lit "keydata"]) None
  = parse_ac_headervalue PY3 (lit "foo=bar").
Proof.
  apply (selection_without_survivor PY3
           (example_message "2020-03-03" [lit "foo=bar"; lit "keydata"]) None).
  - vm_compute. discriminate.
  - repeat constructor; eexists; (split; [vm_compute; reflexivity|]);
      left; vm_compute; reflexivity.
Defined.
